(** * Snooker in-play odds: the probabilistic core of [main.py]

    The numeric helpers ([clip], [logit], [inv_logit]), the two index
    estimators ([season_strength], [live_boost]), the shrink-and-cap step of
    [App.update_all] and the memoised race recurrence [match_win_prob];
    then the score overlay and the fair prices of [App.update_all] and the
    edge arithmetic of [App.compare_value].

    Python floats are read as real numbers.  The operations of the source
    that can raise are kept partial: [/] raises [ZeroDivisionError] on a zero
    divisor, [math.log] raises [ValueError] outside its domain, and
    [math.exp] raises [OverflowError] when its result exceeds the largest
    double.  Rounding of the float operations is not modelled.  The memo
    dictionary of [match_win_prob] is a finite map threaded through the
    calls, and the depth of the Python recursion is a fuel argument.

    Where rounding decides a property, [match_win_prob], which only adds,
    subtracts and multiplies, is also given on IEEE binary64 numbers
    ([match_win_prob_double]), so that a value of the code can be computed
    bit for bit. *)

From Stdlib Require Import Reals Lra Lia ZArith Floats.
From stdpp Require Import base option gmap.
From Equations Require Import Equations.

Local Open Scope R_scope.

(** ** Exceptions and partial arithmetic *)

Inductive exn : Type :=
  | ZeroDivisionError
  | ValueError
  | OverflowError.

Inductive py (A : Type) : Type :=
  | Ok (a : A)
  | Raise (e : exn).

Arguments Ok {A} a.
Arguments Raise {A} e.

#[export] Instance py_ret : MRet py := fun A a => Ok a.

#[export] Instance py_bind : MBind py := fun A B k m =>
  match m with
  | Ok a => k a
  | Raise e => Raise e
  end.

(** [x / y] on floats. *)
Definition py_div (x y : R) : py R :=
  if Req_dec_T y 0 then Raise ZeroDivisionError else Ok (x / y).

Infix "//" := py_div (at level 40, left associativity) : R_scope.

(** [math.log]. *)
Definition math_log (x : R) : py R :=
  if Rlt_dec 0 x then Ok (ln x) else Raise ValueError.

(** The largest finite double, [(2 - 2^-52) * 2^1023]. *)
Definition DBL_MAX : R := (2 - / 2 ^ 52) * 2 ^ 1023.

(** [math.exp]: raises [OverflowError] ("math range error") when the result
    is too large for a double. *)
Definition math_exp (x : R) : py R :=
  if Rle_dec (exp x) DBL_MAX then Ok (exp x) else Raise OverflowError.

(** [round(x)] with one argument: the nearest integer, ties to the even one. *)
Definition py_round (x : R) : Z :=
  let n := Int_part x in
  let f := frac_part x in
  if Rlt_dec f (1 / 2) then n
  else if Rlt_dec (1 / 2) f then (n + 1)%Z
  else if Z.even n then n else (n + 1)%Z.

(** ** Math helpers *)

Definition clip (x lo hi : R) : R := Rmax lo (Rmin hi x).

Definition logit (p : R) : py R :=
  let p := clip p 1e-6 (1 - 1e-6) in
  q ← p // (1 - p);
  math_log q.

Definition inv_logit (z : R) : py R :=
  e ← math_exp (- z);
  1 // (1 + e).

(** ** The race recurrence

    [memo] is the dictionary keyed by the score [(a, b)].  A call returns its
    value together with the dictionary it leaves behind; [None] means the
    fuel, that is the allowed call depth, ran out. *)

Fixpoint match_win_prob (fuel : nat) (p : R) (a b target : Z)
    (memo : gmap (Z * Z) R) : option (R * gmap (Z * Z) R) :=
  match fuel with
  | O => None
  | S fuel =>
      let key := (a, b) in
      if (a >=? target)%Z then Some (1, memo)
      else if (b >=? target)%Z then Some (0, memo)
      else match memo !! key with
           | Some v => Some (v, memo)
           | None =>
               match match_win_prob fuel p (a + 1) b target memo with
               | None => None
               | Some (x, memo1) =>
                   match match_win_prob fuel p a (b + 1) target memo1 with
                   | None => None
                   | Some (y, memo2) =>
                       let v := p * x + (1 - p) * y in
                       Some (v, <[key := v]> memo2)
                   end
               end
           end
  end.

(** A call without the [memo] argument starts from the empty dictionary. *)
Definition match_win_prob_call (fuel : nat) (p : R) (a b target : Z)
    : option R :=
  fst <$> match_win_prob fuel p a b target ∅.

(** Call depth that suffices from the score [(a, b)]. *)
Definition race_depth (a b target : Z) : nat :=
  (Z.to_nat (target - a) + Z.to_nat (target - b))%nat.

(** The two recursive calls made from a score that is not terminal. *)
Inductive rec_call (target : Z) : Z * Z -> Z * Z -> Prop :=
  | rec_call_a a b :
      (a < target)%Z -> (b < target)%Z ->
      rec_call target (a, b) ((a + 1)%Z, b)
  | rec_call_b a b :
      (a < target)%Z -> (b < target)%Z ->
      rec_call target (a, b) (a, (b + 1)%Z).

(** The recurrence as the specification words it, without a memo:
    [f(a,b) = p*f(a+1,b) + (1-p)*f(a,b+1)] below the target. *)
Equations race_naive (p : R) (target a b : Z) : R
    by wf (race_depth a b target) lt :=
  race_naive p target a b with Z_ge_dec a target := {
    | left _ => 1
    | right _ with Z_ge_dec b target := {
        | left _ => 0
        | right _ =>
            p * race_naive p target (a + 1) b
            + (1 - p) * race_naive p target a (b + 1) } }.
Next Obligation. unfold race_depth. lia. Qed.
Next Obligation. unfold race_depth. lia. Qed.

(** The memo invariant: every stored value is the value of the recurrence
    at its key. *)
Definition memo_ok (p : R) (target : Z) (memo : gmap (Z * Z) R) : Prop :=
  forall a b v, memo !! (a, b) = Some v -> v = race_naive p target a b.

(** The same function on doubles: every [*], [+] and [-] is the rounded
    binary64 operation, in the order Python evaluates them. *)
Fixpoint match_win_prob_double (fuel : nat) (p : float) (a b target : Z)
    (memo : gmap (Z * Z) float) : option (float * gmap (Z * Z) float) :=
  match fuel with
  | O => None
  | S fuel =>
      let key := (a, b) in
      if (a >=? target)%Z then Some (1%float, memo)
      else if (b >=? target)%Z then Some (0%float, memo)
      else match memo !! key with
           | Some v => Some (v, memo)
           | None =>
               match match_win_prob_double fuel p (a + 1) b target memo with
               | None => None
               | Some (x, memo1) =>
                   match
                     match_win_prob_double fuel p a (b + 1) target memo1
                   with
                   | None => None
                   | Some (y, memo2) =>
                       let v := (p * x + (1 - p) * y)%float in
                       Some (v, <[key := v]> memo2)
                   end
               end
           end
  end.

Definition match_win_prob_double_call (fuel : nat) (p : float)
    (a b target : Z) : option float :=
  fst <$> match_win_prob_double fuel p a b target ∅.

(** ** Modelling *)

Definition season_strength
    (points_scored matches_played win_rate avg_shot_time b50 b100
     w_wr w_ppm w_b50 w_b100 w_shot scale : R) : py R :=
  let mp := Z.max 1 (py_round matches_played) in
  ppm ← points_scored // IZR mp;
  r50 ← b50 // IZR mp;
  r100 ← b100 // IZR mp;
  let ppm_c := 300 in
  let r50_c := 1 in
  let r100_c := 0.15 in
  let shot_c := 30 in
  wr ← win_rate // 100;
  t_ppm ← (ppm - ppm_c) // ppm_c;
  t_b50 ← (r50 - r50_c) // Rmax 0.3 r50_c;
  t_b100 ← (r100 - r100_c) // Rmax 0.05 r100_c;
  t_shot ← (shot_c - avg_shot_time) // shot_c;
  let idx :=
    w_wr * (wr - 0.50) + w_ppm * t_ppm + w_b50 * t_b50
    + w_b100 * t_b100 + w_shot * t_shot in
  mret (scale * idx).

(** The local function [z] of [live_boost]. *)
Definition z (diff sd : R) : py R :=
  q ← diff // Rmax sd 1e-9;
  mret (clip q (-3) 3).

Definition live_boost
    (potA potB stA stB b50A b50B b100A b100B hbA hbB
     ptsA ptsB shotsA shotsB totA totB
     w_pot w_st w_b50 w_b100 w_hb w_pts w_shots w_tot
     sd_pot sd_st sd_b50 sd_b100 sd_hb
     sd_pts_share sd_shots_share sd_tot_share : R)
    (k_shots : Z) (beta : R) : py R :=
  let shots_tot := Rmax 1 (shotsA + shotsB) in
  r ← shots_tot // IZR (Z.max 1 k_shots);
  let w_rel := clip r 0 1 in
  pot_diff ← (potA - potB) // 100;
  let st_diff := stB - stA in
  let b50_diff := b50A - b50B in
  let b100_diff := b100A - b100B in
  hb_diff ← (hbA - hbB) // 100;
  pts_share ← ptsA // Rmax 1e-9 (ptsA + ptsB);
  shots_share ← shotsA // Rmax 1e-9 (shotsA + shotsB);
  tot_share ← totA // 100;
  sd_pot' ← sd_pot // 100;
  z_pot ← z pot_diff sd_pot';
  z_st ← z st_diff sd_st;
  z_b50 ← z b50_diff sd_b50;
  z_b100 ← z b100_diff sd_b100;
  sd_hb' ← sd_hb // 100;
  z_hb ← z hb_diff sd_hb';
  z_pts ← z (pts_share - 0.5) sd_pts_share;
  z_shots ← z (shots_share - 0.5) sd_shots_share;
  z_tot ← z (tot_share - 0.5) sd_tot_share;
  let S :=
    w_pot * z_pot + w_st * z_st + w_b50 * z_b50 + w_b100 * z_b100
    + w_hb * z_hb + w_pts * z_pts + w_shots * z_shots + w_tot * z_tot in
  mret (beta * w_rel * S).

(** ** The shrink-and-cap step of [App.update_all]

    From the two season indices and the live boost to the per-frame
    probability handed to [match_win_prob]. *)

(** The interval computed under [if self.cap_on.get()]: both ends clamped,
    then exchanged when [pmin > pmax]. *)
Definition cap_interval (pmin pmax : R) : R * R :=
  let pmin := clip pmin 0 0.5 in
  let pmax := clip pmax 0.5 1 in
  if Rlt_dec pmax pmin then (pmax, pmin) else (pmin, pmax).

Definition update_all_p_frame
    (SA SB boost lambda_shrink : R) (cap_on : bool) (pmin pmax : R) : py R :=
  let base_logit := SA - SB in
  let total_logit := base_logit + boost in
  p_frame_raw ← inv_logit total_logit;
  let lam := clip lambda_shrink 0 1 in
  let p_frame := 0.5 + lam * (p_frame_raw - 0.5) in
  if cap_on then
    let '(pmin, pmax) := cap_interval pmin pmax in
    mret (clip p_frame pmin pmax)
  else mret p_frame.

(** ** Values of the locals of [live_boost]

    What [z], [w_rel] and [S] evaluate to once every division is known to
    succeed; [live_boost_value] below ties them to the code. *)

Definition zscore (diff sd : R) : R := clip (diff / Rmax sd 1e-9) (-3) 3.

Definition live_w_rel (shotsA shotsB : R) (k_shots : Z) : R :=
  clip (Rmax 1 (shotsA + shotsB) / IZR (Z.max 1 k_shots)) 0 1.

Definition live_S
    (potA potB stA stB b50A b50B b100A b100B hbA hbB
     ptsA ptsB shotsA shotsB totA
     w_pot w_st w_b50 w_b100 w_hb w_pts w_shots w_tot
     sd_pot sd_st sd_b50 sd_b100 sd_hb
     sd_pts_share sd_shots_share sd_tot_share : R) : R :=
  w_pot * zscore ((potA - potB) / 100) (sd_pot / 100)
  + w_st * zscore (stB - stA) sd_st
  + w_b50 * zscore (b50A - b50B) sd_b50
  + w_b100 * zscore (b100A - b100B) sd_b100
  + w_hb * zscore ((hbA - hbB) / 100) (sd_hb / 100)
  + w_pts * zscore (ptsA / Rmax 1e-9 (ptsA + ptsB) - 0.5) sd_pts_share
  + w_shots
    * zscore (shotsA / Rmax 1e-9 (shotsA + shotsB) - 0.5) sd_shots_share
  + w_tot * zscore (totA / 100 - 0.5) sd_tot_share.

(** ** The score overlay and the prices of [App.update_all] *)

(** [target = bestof//2 + 1]. *)
Definition race_target (bestof : Z) : Z := (bestof / 2 + 1)%Z.

(** The match probability shown: [match_win_prob] at the entered score. *)
Definition update_all_p_match (fuel : nat) (p_frame : R)
    (bestof a_won b_won : Z) : option R :=
  let target := race_target bestof in
  match_win_prob_call fuel p_frame a_won b_won target.

(** [1/max(1e-9, p)]: the fair decimal odds printed for a probability [p]
    (the per-frame price, and the two match prices at [p_match] and
    [1 - p_match]). *)
Definition fair_odds (p : R) : py R := 1 // Rmax 1e-9 p.

(** ** [App.compare_value]

    The arithmetic of the local function [edge] on a parsed book price.  Any
    exception inside it is caught and reported as invalid odds. *)

Inductive flag : Type :=
  | VALUE
  | MARGINAL
  | NO_VALUE.

Inductive edge_line : Type :=
  | Edge (e : R) (f : flag)
  | InvalidOdds.

Definition edge (b fair : R) : edge_line :=
  match (q ← (b - fair) // fair; mret (q * 100)) with
  | Ok e =>
      let flag :=
        if Rlt_dec 2 e then VALUE
        else if Rle_dec (-2) e then
               if Rle_dec e 2 then MARGINAL else NO_VALUE
             else NO_VALUE in
      Edge e flag
  | Raise _ => InvalidOdds
  end.

(** * Properties *)

(** ** Partial arithmetic *)

Lemma py_div_ok (x y : R) : y <> 0 -> x // y = Ok (x / y).
Proof.
  intros Hy. unfold py_div.
  destruct (Req_dec_T y 0); [contradiction | reflexivity].
Qed.

Lemma py_div_100 (x : R) : x // 100 = Ok (x / 100).
Proof. apply py_div_ok. lra. Qed.

Lemma math_log_ok (x : R) : 0 < x -> math_log x = Ok (ln x).
Proof.
  intros Hx. unfold math_log.
  destruct (Rlt_dec 0 x); [reflexivity | contradiction].
Qed.

Lemma math_exp_ok (x : R) : exp x <= DBL_MAX -> math_exp x = Ok (exp x).
Proof.
  intros Hx. unfold math_exp.
  destruct (Rle_dec (exp x) DBL_MAX); [reflexivity | contradiction].
Qed.

Lemma math_exp_overflow (x : R) :
  DBL_MAX < exp x -> math_exp x = Raise OverflowError.
Proof.
  intros Hx. unfold math_exp.
  destruct (Rle_dec (exp x) DBL_MAX); [lra | reflexivity].
Qed.

Lemma DBL_MAX_lower : 2 ^ 1023 <= DBL_MAX.
Proof.
  unfold DBL_MAX.
  assert (H52 : 0 < / 2 ^ 52 <= 1).
  { assert (1 <= 2 ^ 52) by (apply pow_R1_Rle; lra).
    split; [apply Rinv_0_lt_compat; lra |].
    rewrite <- Rinv_1. apply Rinv_le_contravar; lra. }
  assert (0 < 2 ^ 1023) by (apply pow_lt; lra).
  nra.
Qed.

Lemma DBL_MAX_upper : DBL_MAX < 2 ^ 1024.
Proof.
  unfold DBL_MAX.
  assert (H52 : 0 < / 2 ^ 52).
  { apply Rinv_0_lt_compat. apply pow_lt. lra. }
  assert (0 < 2 ^ 1023) by (apply pow_lt; lra).
  change (2 ^ 1024) with (2 * 2 ^ 1023). nra.
Qed.

Lemma DBL_MAX_million : 1e6 <= DBL_MAX.
Proof.
  apply Rle_trans with (2 ^ 1023); [| apply DBL_MAX_lower].
  apply Rle_trans with (2 ^ 20); [lra |].
  apply Rle_pow; [lra | lia].
Qed.

(** ** [clip] *)

Lemma clip_bounds (x lo hi : R) : lo <= hi -> lo <= clip x lo hi <= hi.
Proof.
  intros H. unfold clip, Rmax, Rmin.
  destruct (Rle_dec hi x); destruct (Rle_dec lo _); lra.
Qed.

Lemma clip_id (x lo hi : R) : lo <= x <= hi -> clip x lo hi = x.
Proof.
  intros H. unfold clip, Rmax, Rmin.
  destruct (Rle_dec hi x); destruct (Rle_dec lo _); lra.
Qed.

Lemma Rmax_floor_pos (x e : R) : 0 < e -> 0 < Rmax x e /\ 0 < Rmax e x.
Proof.
  intros He. unfold Rmax.
  destruct (Rle_dec x e); destruct (Rle_dec e x); lra.
Qed.

Lemma Rmax_eq_l (x y : R) : y <= x -> Rmax x y = x.
Proof. intros H. unfold Rmax. destruct (Rle_dec x y); lra. Qed.

Lemma Rmax_eq_r (x y : R) : x <= y -> Rmax x y = y.
Proof. intros H. unfold Rmax. destruct (Rle_dec x y); lra. Qed.

Lemma IZR_max_1_pos (k : Z) : 0 < IZR (Z.max 1 k).
Proof. apply IZR_lt. lia. Qed.

(** ** [live_boost] *)

Lemma z_value (diff sd : R) : z diff sd = Ok (zscore diff sd).
Proof.
  unfold z, zscore. rewrite py_div_ok; [reflexivity |].
  destruct (Rmax_floor_pos sd 1e-9); lra.
Qed.

Section LiveBoost.

Variables potA potB stA stB b50A b50B b100A b100B hbA hbB ptsA ptsB : R.
Variables w_pot w_st w_b50 w_b100 w_hb w_pts w_shots w_tot : R.
Variables sd_pot sd_st sd_b50 sd_b100 sd_hb : R.
Variables sd_pts_share sd_shots_share sd_tot_share : R.
Variable k_shots : Z.
Variable beta : R.

Lemma live_boost_value (shotsA shotsB totA totB : R) :
  live_boost potA potB stA stB b50A b50B b100A b100B hbA hbB
    ptsA ptsB shotsA shotsB totA totB
    w_pot w_st w_b50 w_b100 w_hb w_pts w_shots w_tot
    sd_pot sd_st sd_b50 sd_b100 sd_hb
    sd_pts_share sd_shots_share sd_tot_share k_shots beta
  = Ok (beta * live_w_rel shotsA shotsB k_shots
        * live_S potA potB stA stB b50A b50B b100A b100B hbA hbB
            ptsA ptsB shotsA shotsB totA
            w_pot w_st w_b50 w_b100 w_hb w_pts w_shots w_tot
            sd_pot sd_st sd_b50 sd_b100 sd_hb
            sd_pts_share sd_shots_share sd_tot_share).
Proof.
  unfold live_boost, live_w_rel, live_S.
  pose proof (IZR_max_1_pos k_shots) as Hk.
  destruct (Rmax_floor_pos (ptsA + ptsB) 1e-9) as [_ Hp]; [lra |].
  destruct (Rmax_floor_pos (shotsA + shotsB) 1e-9) as [_ Hs]; [lra |].
  rewrite (py_div_ok _ (IZR (Z.max 1 k_shots))) by lra.
  rewrite !py_div_100.
  rewrite (py_div_ok ptsA) by lra.
  rewrite (py_div_ok shotsA) by lra.
  cbn [mbind py_bind].
  rewrite !z_value. reflexivity.
Qed.

(** C1 (amended): with no shots taken the shot total is floored at 1, so
    the reliability weight is [1 / max(1, k_shots)] rather than 0, and
    [live_boost] returns [beta * (1 / max(1, k_shots)) * S]. *)
Theorem live_boost_zero_shots (shotsA shotsB totA totB : R) :
  shotsA + shotsB = 0 ->
  live_boost potA potB stA stB b50A b50B b100A b100B hbA hbB
    ptsA ptsB shotsA shotsB totA totB
    w_pot w_st w_b50 w_b100 w_hb w_pts w_shots w_tot
    sd_pot sd_st sd_b50 sd_b100 sd_hb
    sd_pts_share sd_shots_share sd_tot_share k_shots beta
  = Ok (beta * (1 / IZR (Z.max 1 k_shots))
        * live_S potA potB stA stB b50A b50B b100A b100B hbA hbB
            ptsA ptsB shotsA shotsB totA
            w_pot w_st w_b50 w_b100 w_hb w_pts w_shots w_tot
            sd_pot sd_st sd_b50 sd_b100 sd_hb
            sd_pts_share sd_shots_share sd_tot_share).
Proof.
  intros Hshots. rewrite live_boost_value. unfold live_w_rel.
  rewrite Hshots, (Rmax_eq_l 1 0) by lra.
  rewrite clip_id; [reflexivity |].
  assert (Hk : 1 <= IZR (Z.max 1 k_shots)) by (apply IZR_le; lia).
  split.
  - apply Rlt_le. apply Rdiv_lt_0_compat; lra.
  - apply Rmult_le_reg_r with (IZR (Z.max 1 k_shots)); [lra |].
    unfold Rdiv. rewrite Rmult_assoc, Rinv_l by lra. lra.
Qed.

(** C10: [totB] never reaches the result.  The time-on-table term is
    [w_tot * zscore (totA / 100 - 0.5) sd_tot_share], the last summand of
    [live_S], which reads player A's percentage only. *)
Theorem live_boost_ignores_totB (shotsA shotsB totA totB totB' : R) :
  live_boost potA potB stA stB b50A b50B b100A b100B hbA hbB
    ptsA ptsB shotsA shotsB totA totB
    w_pot w_st w_b50 w_b100 w_hb w_pts w_shots w_tot
    sd_pot sd_st sd_b50 sd_b100 sd_hb
    sd_pts_share sd_shots_share sd_tot_share k_shots beta
  = live_boost potA potB stA stB b50A b50B b100A b100B hbA hbB
      ptsA ptsB shotsA shotsB totA totB'
      w_pot w_st w_b50 w_b100 w_hb w_pts w_shots w_tot
      sd_pot sd_st sd_b50 sd_b100 sd_hb
      sd_pts_share sd_shots_share sd_tot_share k_shots beta
  /\ live_boost potA potB stA stB b50A b50B b100A b100B hbA hbB
      ptsA ptsB shotsA shotsB totA totB
      w_pot w_st w_b50 w_b100 w_hb w_pts w_shots w_tot
      sd_pot sd_st sd_b50 sd_b100 sd_hb
      sd_pts_share sd_shots_share sd_tot_share k_shots beta
    = Ok (beta * live_w_rel shotsA shotsB k_shots
          * live_S potA potB stA stB b50A b50B b100A b100B hbA hbB
              ptsA ptsB shotsA shotsB totA
              w_pot w_st w_b50 w_b100 w_hb w_pts w_shots w_tot
              sd_pot sd_st sd_b50 sd_b100 sd_hb
              sd_pts_share sd_shots_share sd_tot_share).
Proof.
  split; [| apply live_boost_value].
  rewrite (live_boost_value shotsA shotsB totA totB).
  rewrite (live_boost_value shotsA shotsB totA totB').
  reflexivity.
Qed.

End LiveBoost.

(** C1, counterexample: pot rates 60 and 50 with a 10-point standard
    deviation, only the pot weight set, [k_shots = 150], [beta = 0.25] and
    no shot taken by either player: the boost is [1/600], not 0. *)
Lemma live_boost_zero_shots_nonzero :
  0 + 0 = 0 /\
  live_boost 60 50 0 0 0 0 0 0 0 0 0 0 0 0 50 50
    1 0 0 0 0 0 0 0
    10 1 1 1 1 1 1 1 150 0.25 = Ok (1 / 600) /\
  1 / 600 <> 0.
Proof.
  split; [lra |]. split; [| lra].
  rewrite live_boost_value. f_equal.
  unfold live_w_rel, live_S. rewrite !Rmult_0_l.
  change (Z.max 1 150) with 150%Z.
  unfold zscore.
  rewrite (Rmax_eq_l 1) by lra.
  rewrite (Rmax_eq_l (10 / 100)) by lra.
  rewrite !clip_id by lra.
  lra.
Qed.

Lemma live_boost_zero_shots_witness :
  0 + 0 = 0 /\
  live_boost 60 50 0 0 0 0 0 0 0 0 0 0 0 0 50 50
    1 0 0 0 0 0 0 0
    10 1 1 1 1 1 1 1 150 0.25
  = Ok (0.25 * (1 / IZR (Z.max 1 150))
        * live_S 60 50 0 0 0 0 0 0 0 0 0 0 0 0 50
            1 0 0 0 0 0 0 0 10 1 1 1 1 1 1 1).
Proof.
  split; [lra |]. apply live_boost_zero_shots. lra.
Defined.

(** ** The race recurrence *)

Lemma race_depth_a (a b target : Z) :
  (a < target)%Z -> race_depth a b target = S (race_depth (a + 1) b target).
Proof. unfold race_depth. lia. Qed.

Lemma race_depth_b (a b target : Z) :
  (b < target)%Z -> race_depth a b target = S (race_depth a (b + 1) target).
Proof. unfold race_depth. lia. Qed.

Lemma match_win_prob_won fuel p a b target memo :
  (a >= target)%Z -> match_win_prob (S fuel) p a b target memo = Some (1, memo).
Proof.
  intros H. cbn [match_win_prob].
  destruct (Z.geb_spec a target); [reflexivity | lia].
Qed.

Lemma match_win_prob_lost fuel p a b target memo :
  (a < target)%Z -> (b >= target)%Z ->
  match_win_prob (S fuel) p a b target memo = Some (0, memo).
Proof.
  intros Ha Hb. cbn [match_win_prob].
  destruct (Z.geb_spec a target); [lia |].
  destruct (Z.geb_spec b target); [reflexivity | lia].
Qed.

Lemma match_win_prob_hit fuel p a b target memo v :
  (a < target)%Z -> (b < target)%Z -> memo !! (a, b) = Some v ->
  match_win_prob (S fuel) p a b target memo = Some (v, memo).
Proof.
  intros Ha Hb Hm. cbn [match_win_prob].
  destruct (Z.geb_spec a target); [lia |].
  destruct (Z.geb_spec b target); [lia |].
  rewrite Hm. reflexivity.
Qed.

Lemma match_win_prob_miss fuel p a b target memo :
  (a < target)%Z -> (b < target)%Z -> memo !! (a, b) = None ->
  match_win_prob (S fuel) p a b target memo =
    match match_win_prob fuel p (a + 1) b target memo with
    | None => None
    | Some (x, memo1) =>
        match match_win_prob fuel p a (b + 1) target memo1 with
        | None => None
        | Some (y, memo2) =>
            Some (p * x + (1 - p) * y,
                  <[(a, b) := p * x + (1 - p) * y]> memo2)
        end
    end.
Proof.
  intros Ha Hb Hm. cbn [match_win_prob].
  destruct (Z.geb_spec a target); [lia |].
  destruct (Z.geb_spec b target); [lia |].
  rewrite Hm. reflexivity.
Qed.

(** Case analysis on a score, the way the code tests it. *)
Lemma score_cases (a b target : Z) :
  (a >= target)%Z \/ ((a < target)%Z /\ (b >= target)%Z)
  \/ ((a < target)%Z /\ (b < target)%Z).
Proof. lia. Qed.

Lemma match_win_prob_returns fuel : forall p a b target memo,
  (race_depth a b target < fuel)%nat ->
  exists v memo', match_win_prob fuel p a b target memo = Some (v, memo').
Proof.
  induction fuel as [| fuel IH]; intros p a b target memo Hfuel; [lia |].
  destruct (score_cases a b target) as [Ha | [[Ha Hb] | [Ha Hb]]].
  - rewrite match_win_prob_won by assumption. eauto.
  - rewrite match_win_prob_lost by assumption. eauto.
  - destruct (memo !! (a, b)) as [v |] eqn:Hm.
    + rewrite (match_win_prob_hit _ _ _ _ _ _ v) by assumption. eauto.
    + rewrite match_win_prob_miss by assumption.
      destruct (IH p (a + 1)%Z b target memo) as (x & memo1 & ->).
      { rewrite (race_depth_a a b target) in Hfuel by assumption. lia. }
      destruct (IH p a (b + 1)%Z target memo1) as (y & memo2 & ->).
      { rewrite (race_depth_b a b target) in Hfuel by assumption. lia. }
      eauto.
Qed.

Lemma match_win_prob_fuel_mono fuel : forall fuel' p a b target memo r,
  (fuel <= fuel')%nat ->
  match_win_prob fuel p a b target memo = Some r ->
  match_win_prob fuel' p a b target memo = Some r.
Proof.
  induction fuel as [| fuel IH]; intros fuel' p a b target memo r Hle Hrun.
  - discriminate.
  - destruct fuel' as [| fuel']; [lia |].
    destruct (score_cases a b target) as [Ha | [[Ha Hb] | [Ha Hb]]].
    + rewrite match_win_prob_won in Hrun |- * by assumption. assumption.
    + rewrite match_win_prob_lost in Hrun |- * by assumption. assumption.
    + destruct (memo !! (a, b)) as [v |] eqn:Hm.
      * rewrite (match_win_prob_hit fuel _ _ _ _ _ v) in Hrun by assumption.
        rewrite (match_win_prob_hit fuel' _ _ _ _ _ v) by assumption.
        assumption.
      * rewrite match_win_prob_miss in Hrun |- * by assumption.
        destruct (match_win_prob fuel p (a + 1) b target memo)
          as [[x memo1] |] eqn:H1; [| discriminate].
        rewrite (IH fuel' _ _ _ _ _ _ ltac:(lia) H1).
        destruct (match_win_prob fuel p a (b + 1) target memo1)
          as [[y memo2] |] eqn:H2; [| discriminate].
        rewrite (IH fuel' _ _ _ _ _ _ ltac:(lia) H2).
        assumption.
Qed.

(** *** The unmemoised recurrence *)

Lemma race_naive_won p target a b :
  (a >= target)%Z -> race_naive p target a b = 1.
Proof.
  intros H. simp race_naive.
  destruct (Z_ge_dec a target); [reflexivity | contradiction].
Qed.

Lemma race_naive_lost p target a b :
  (a < target)%Z -> (b >= target)%Z -> race_naive p target a b = 0.
Proof.
  intros Ha Hb. simp race_naive.
  destruct (Z_ge_dec a target); [lia |]. cbn.
  destruct (Z_ge_dec b target); [reflexivity | contradiction].
Qed.

Lemma race_naive_step p target a b :
  (a < target)%Z -> (b < target)%Z ->
  race_naive p target a b =
    p * race_naive p target (a + 1) b + (1 - p) * race_naive p target a (b + 1).
Proof.
  intros Ha Hb. rewrite (race_naive_equation_1 p target a b).
  destruct (Z_ge_dec a target); [lia |]. cbn.
  destruct (Z_ge_dec b target); [lia | reflexivity].
Qed.

(** Induction along the recurrence. *)
Lemma race_ind (target : Z) (P : Z -> Z -> Prop) :
  (forall a b, (a >= target)%Z -> P a b) ->
  (forall a b, (a < target)%Z -> (b >= target)%Z -> P a b) ->
  (forall a b, (a < target)%Z -> (b < target)%Z ->
     P (a + 1)%Z b -> P a (b + 1)%Z -> P a b) ->
  forall a b, P a b.
Proof.
  intros Hwon Hlost Hstep a b.
  remember (race_depth a b target) as n eqn:Hn.
  revert a b Hn. induction n as [n IH] using lt_wf_ind. intros a b Hn.
  destruct (score_cases a b target) as [Ha | [[Ha Hb] | [Ha Hb]]].
  - apply Hwon; assumption.
  - apply Hlost; assumption.
  - apply Hstep; try assumption.
    + apply (IH (race_depth (a + 1) b target)); [| reflexivity].
      rewrite Hn, (race_depth_a a b target) by assumption. lia.
    + apply (IH (race_depth a (b + 1) target)); [| reflexivity].
      rewrite Hn, (race_depth_b a b target) by assumption. lia.
Qed.

Lemma convex_le (p x y x' y' : R) :
  0 <= p <= 1 -> x <= x' -> y <= y' ->
  p * x + (1 - p) * y <= p * x' + (1 - p) * y'.
Proof.
  intros Hp Hx Hy. apply Rplus_le_compat; apply Rmult_le_compat_l; lra.
Qed.

Section Race.

Variable p : R.
Variable target : Z.

Lemma memo_ok_empty : memo_ok p target ∅.
Proof. intros a b v H. rewrite lookup_empty in H. discriminate. Qed.

Lemma memo_ok_insert memo a b :
  memo_ok p target memo ->
  memo_ok p target (<[(a, b) := race_naive p target a b]> memo).
Proof.
  intros Hok a' b' v H.
  destruct (decide ((a, b) = (a', b'))) as [Heq | Hne].
  - inversion Heq; subst. rewrite lookup_insert_eq in H. congruence.
  - rewrite lookup_insert_ne in H by assumption. apply Hok. assumption.
Qed.

Lemma match_win_prob_naive fuel : forall a b memo v memo',
  memo_ok p target memo ->
  match_win_prob fuel p a b target memo = Some (v, memo') ->
  v = race_naive p target a b /\ memo_ok p target memo'.
Proof.
  induction fuel as [| fuel IH]; intros a b memo v memo' Hok Hrun.
  - discriminate.
  - destruct (score_cases a b target) as [Ha | [[Ha Hb] | [Ha Hb]]].
    + rewrite match_win_prob_won in Hrun by assumption.
      rewrite race_naive_won by assumption.
      inversion Hrun; subst. split; [reflexivity | assumption].
    + rewrite match_win_prob_lost in Hrun by assumption.
      rewrite race_naive_lost by assumption.
      inversion Hrun; subst. split; [reflexivity | assumption].
    + destruct (memo !! (a, b)) as [w |] eqn:Hm.
      * rewrite (match_win_prob_hit _ _ _ _ _ _ w) in Hrun by assumption.
        inversion Hrun; subst. split; [apply Hok |]; assumption.
      * rewrite match_win_prob_miss in Hrun by assumption.
        destruct (match_win_prob fuel p (a + 1) b target memo)
          as [[x memo1] |] eqn:H1; [| discriminate].
        destruct (match_win_prob fuel p a (b + 1) target memo1)
          as [[y memo2] |] eqn:H2; [| discriminate].
        destruct (IH _ _ _ _ _ Hok H1) as [-> Hok1].
        destruct (IH _ _ _ _ _ Hok1 H2) as [-> Hok2].
        inversion Hrun; subst.
        rewrite <- race_naive_step by assumption.
        split; [reflexivity | apply memo_ok_insert; assumption].
Qed.

Lemma match_win_prob_call_naive fuel a b :
  (race_depth a b target < fuel)%nat ->
  match_win_prob_call fuel p a b target = Some (race_naive p target a b).
Proof.
  intros Hfuel. unfold match_win_prob_call.
  destruct (match_win_prob_returns fuel p a b target ∅ Hfuel)
    as (v & memo' & Hrun).
  rewrite Hrun. cbn.
  destruct (match_win_prob_naive _ _ _ _ _ _ memo_ok_empty Hrun) as [-> _].
  reflexivity.
Qed.

Hypothesis p_range : 0 <= p <= 1.

Lemma race_naive_range a b : 0 <= race_naive p target a b <= 1.
Proof.
  revert a b. apply (race_ind target); intros a b.
  - intros Ha. rewrite race_naive_won by assumption. lra.
  - intros Ha Hb. rewrite race_naive_lost by assumption. lra.
  - intros Ha Hb IHa IHb. rewrite race_naive_step by assumption. nra.
Qed.

(** Winning a frame never lowers the value... *)
Lemma race_naive_mono_a a b :
  race_naive p target a b <= race_naive p target (a + 1) b.
Proof.
  revert a b. apply (race_ind target); intros a b.
  - intros Ha. rewrite !race_naive_won by lia. lra.
  - intros Ha Hb. rewrite race_naive_lost by assumption.
    apply race_naive_range.
  - intros Ha Hb IHa IHb.
    destruct (Z_lt_dec (a + 1) target) as [Ha' | Ha'].
    + rewrite (race_naive_step _ _ a b) by assumption.
      apply Rle_trans with
        (p * race_naive p target (a + 1 + 1) b
         + (1 - p) * race_naive p target (a + 1) (b + 1)).
      * apply convex_le; assumption.
      * apply Req_le. symmetry. apply race_naive_step; assumption.
    + rewrite (race_naive_won _ _ (a + 1) b) by lia.
      apply race_naive_range.
Qed.

(** ... and losing one never raises it. *)
Lemma race_naive_mono_b a b :
  race_naive p target a (b + 1) <= race_naive p target a b.
Proof.
  revert a b. apply (race_ind target); intros a b.
  - intros Ha. rewrite !race_naive_won by lia. lra.
  - intros Ha Hb. rewrite !race_naive_lost by lia. lra.
  - intros Ha Hb IHa IHb.
    destruct (Z_lt_dec (b + 1) target) as [Hb' | Hb'].
    + rewrite (race_naive_step _ _ a b) by assumption.
      apply Rle_trans with
        (p * race_naive p target (a + 1) (b + 1)
         + (1 - p) * race_naive p target a (b + 1 + 1)).
      * apply Req_le. apply race_naive_step; assumption.
      * apply convex_le; assumption.
    + rewrite (race_naive_lost _ _ a (b + 1)) by lia.
      apply race_naive_range.
Qed.

End Race.

Lemma race_naive_mono_p (target : Z) (p q : R) :
  0 <= p -> p <= q -> q <= 1 ->
  forall a b, race_naive p target a b <= race_naive q target a b.
Proof.
  intros Hp Hpq Hq. apply (race_ind target); intros a b.
  - intros Ha. rewrite !race_naive_won by assumption. lra.
  - intros Ha Hb. rewrite !race_naive_lost by assumption. lra.
  - intros Ha Hb IHa IHb.
    assert (Hq01 : 0 <= q <= 1) by lra.
    pose proof (race_naive_mono_a q target Hq01 a b) as Hqa.
    pose proof (race_naive_mono_b q target Hq01 a b) as Hqb.
    rewrite (race_naive_step p), (race_naive_step q) by assumption.
    apply Rle_trans with
      (p * race_naive q target (a + 1) b
       + (1 - p) * race_naive q target a (b + 1)).
    + apply convex_le; [lra | assumption | assumption].
    + assert (0 <= (q - p) * (race_naive q target (a + 1) b
                              - race_naive q target a (b + 1)))
        by (apply Rmult_le_pos; lra).
      nra.
Qed.

(** ** [logit] and [inv_logit] *)

Lemma logit_returns (p : R) : exists v, logit p = Ok v.
Proof.
  unfold logit.
  pose proof (clip_bounds p 1e-6 (1 - 1e-6) ltac:(lra)) as Hc.
  rewrite py_div_ok by lra. cbn [mbind py_bind].
  rewrite math_log_ok by (apply Rdiv_lt_0_compat; lra). eauto.
Qed.

Lemma inv_logit_value (z : R) :
  exp (- z) <= DBL_MAX -> inv_logit z = Ok (1 / (1 + exp (- z))).
Proof.
  intros Hz. unfold inv_logit. rewrite math_exp_ok by assumption.
  cbn [mbind py_bind]. apply py_div_ok.
  pose proof (exp_pos (- z)). lra.
Qed.

Lemma inv_logit_overflow (z : R) :
  DBL_MAX < exp (- z) -> inv_logit z = Raise OverflowError.
Proof.
  intros Hz. unfold inv_logit. rewrite math_exp_overflow by assumption.
  reflexivity.
Qed.

Lemma sigmoid_range (z : R) : 0 < 1 / (1 + exp (- z)) < 1.
Proof.
  pose proof (exp_pos (- z)) as He.
  split.
  - apply Rdiv_lt_0_compat; lra.
  - apply Rmult_lt_reg_r with (1 + exp (- z)); [lra |].
    unfold Rdiv. rewrite Rmult_assoc, Rinv_l by lra. lra.
Qed.

Lemma exp_nat_lower (n : nat) : 2 ^ n <= exp (INR n).
Proof.
  induction n as [| n IH].
  - simpl. rewrite exp_0. lra.
  - rewrite S_INR, exp_plus. simpl pow.
    pose proof (exp_ineq1 1 ltac:(lra)) as H1.
    assert (0 < 2 ^ n) by (apply pow_lt; lra).
    rewrite Rmult_comm. apply Rmult_le_compat; lra.
Qed.

Lemma exp_1100_overflows : DBL_MAX < exp 1100.
Proof.
  apply Rlt_le_trans with (2 ^ 1024); [apply DBL_MAX_upper |].
  apply Rle_trans with (2 ^ 1100); [apply Rle_pow; [lra | lia] |].
  replace 1100 with (INR 1100) by (rewrite INR_IZR_INZ; reflexivity).
  apply exp_nat_lower.
Qed.

(** ** [season_strength] *)

Lemma season_strength_returns
    (points_scored matches_played win_rate avg_shot_time b50 b100
     w_wr w_ppm w_b50 w_b100 w_shot scale : R) :
  exists v,
    season_strength points_scored matches_played win_rate avg_shot_time
      b50 b100 w_wr w_ppm w_b50 w_b100 w_shot scale = Ok v.
Proof.
  unfold season_strength.
  pose proof (IZR_max_1_pos (py_round matches_played)) as Hmp.
  rewrite (Rmax_eq_r 0.3 1), (Rmax_eq_r 0.05 0.15) by lra.
  repeat (rewrite py_div_ok by lra; cbn [mbind py_bind]).
  cbn [mret py_ret]. eauto.
Qed.

(** ** The shrink-and-cap step *)

Lemma cap_interval_value (pmin pmax : R) :
  cap_interval pmin pmax = (clip pmin 0 0.5, clip pmax 0.5 1).
Proof.
  unfold cap_interval.
  pose proof (clip_bounds pmin 0 0.5 ltac:(lra)).
  pose proof (clip_bounds pmax 0.5 1 ltac:(lra)).
  destruct (Rlt_dec _ _); [lra | reflexivity].
Qed.

Lemma update_all_p_frame_value SA SB boost lambda_shrink cap_on pmin pmax :
  exp (- (SA - SB + boost)) <= DBL_MAX ->
  update_all_p_frame SA SB boost lambda_shrink cap_on pmin pmax =
    let p_frame :=
      0.5 + clip lambda_shrink 0 1
            * (1 / (1 + exp (- (SA - SB + boost))) - 0.5) in
    Ok (if cap_on
        then clip p_frame (clip pmin 0 0.5) (clip pmax 0.5 1)
        else p_frame).
Proof.
  intros Hexp. unfold update_all_p_frame.
  rewrite inv_logit_value by assumption. cbn [mbind py_bind].
  rewrite cap_interval_value. destruct cap_on; reflexivity.
Qed.


(** The race is symmetric under exchanging the players. *)
Lemma race_naive_swap (p : R) (target : Z) : forall a b,
  (a < target)%Z \/ (b < target)%Z ->
  race_naive p target a b + race_naive (1 - p) target b a = 1.
Proof.
  apply (race_ind target (fun a b =>
    (a < target)%Z \/ (b < target)%Z ->
    race_naive p target a b + race_naive (1 - p) target b a = 1)).
  - intros a b Ha Hab.
    rewrite race_naive_won, race_naive_lost by lia. lra.
  - intros a b Ha Hb _.
    rewrite race_naive_lost, race_naive_won by lia. lra.
  - intros a b Ha Hb IHa IHb _.
    rewrite (race_naive_step p), (race_naive_step (1 - p)) by assumption.
    specialize (IHa ltac:(lia)). specialize (IHb ltac:(lia)). nra.
Qed.

Lemma race_naive_even (target a : Z) :
  (a < target)%Z -> race_naive (1 / 2) target a a = 1 / 2.
Proof.
  intros Ha.
  pose proof (race_naive_swap (1 / 2) target a a ltac:(lia)) as H.
  replace (1 - 1 / 2) with (1 / 2) in H by lra. lra.
Qed.

(** With a call depth of at most [target - a] the chain of first recursive
    calls alone runs out: the Python call raises [RecursionError]. *)
Lemma match_win_prob_out_of_depth fuel : forall p a b target memo,
  (b < target)%Z ->
  (forall x, (a <= x)%Z -> memo !! (x, b) = None) ->
  (fuel <= Z.to_nat (target - a))%nat ->
  match_win_prob fuel p a b target memo = None.
Proof.
  induction fuel as [| fuel IH]; intros p a b target memo Hb Hmemo Hfuel.
  - reflexivity.
  - assert (Ha : (a < target)%Z) by lia.
    rewrite match_win_prob_miss by (try assumption; apply Hmemo; lia).
    rewrite IH; [reflexivity | assumption | | lia].
    intros x Hx. apply Hmemo. lia.
Qed.

Lemma exp_neg_fits (x : R) : 0 <= x -> exp (- x) <= DBL_MAX.
Proof.
  intros Hx. apply Rle_trans with 1e6; [| apply DBL_MAX_million].
  apply Rle_trans with (exp 0); [| rewrite exp_0; lra].
  destruct (Req_dec x 0) as [-> | Hne].
  - rewrite Ropp_0. lra.
  - apply Rlt_le. apply exp_increasing. lra.
Qed.

(** A logit of 2 gives a raw probability above 0.66. *)
Lemma sigmoid_2_lower : 0.66 < 1 / (1 + exp (Ropp 2)).
Proof.
  pose proof (exp_ineq1 2 ltac:(lra)) as H2.
  pose proof (exp_pos 2) as Hpos.
  assert (He : exp (Ropp 2) < / 3).
  { rewrite exp_Ropp. apply Rinv_lt_contravar; [| lra].
    apply Rmult_lt_0_compat; lra. }
  pose proof (exp_pos (Ropp 2)) as Hpos'.
  apply Rmult_lt_reg_r with (1 + exp (Ropp 2)); [lra |].
  unfold Rdiv. rewrite Rmult_assoc, Rinv_l by lra. lra.
Qed.

(** With [lambda = 1] and the default cap, a logit of 2 is cut to 0.66. *)
Lemma update_all_p_frame_cap_binds :
  update_all_p_frame 2 0 0 1 true 0.45 0.66 = Ok 0.66.
Proof.
  rewrite update_all_p_frame_value
    by (replace (- (2 - 0 + 0)) with (Ropp 2) by lra;
        apply exp_neg_fits; lra).
  cbv zeta. replace (- (2 - 0 + 0)) with (Ropp 2) by lra.
  pose proof sigmoid_2_lower as Hlow.
  pose proof (sigmoid_range 2) as Hr.
  rewrite (clip_id 1 0 1), (clip_id 0.45), (clip_id 0.66) by lra.
  f_equal. unfold clip.
  rewrite Rmin_left by lra. apply Rmax_right. lra.
Qed.

(** * The claims *)

(** C2 (amended): at a terminal score the call returns at once, leaving the
    memo untouched: 1.0 when [a >= target], and 0.0 when [b >= target] and
    [a < target].  The test on [a] comes first, so a score with both sides at
    or past the target gives 1.0. *)
Theorem match_win_prob_terminal (fuel : nat) (p : R) (a b target : Z)
    (memo : gmap (Z * Z) R) :
  ((a >= target)%Z ->
   match_win_prob (S fuel) p a b target memo = Some (1, memo))
  /\ ((a < target)%Z -> (b >= target)%Z ->
      match_win_prob (S fuel) p a b target memo = Some (0, memo)).
Proof.
  split.
  - apply match_win_prob_won.
  - apply match_win_prob_lost.
Qed.

Lemma match_win_prob_terminal_witness :
  ((4 >= 4)%Z -> match_win_prob 1 (1 / 2) 4 2 4 ∅ = Some (1, ∅))
  /\ ((2 < 4)%Z -> (4 >= 4)%Z ->
      match_win_prob 1 (1 / 2) 2 4 4 ∅ = Some (0, ∅)).
Proof.
  split.
  - apply (match_win_prob_terminal 0 (1 / 2) 4 2 4 ∅).
  - apply (match_win_prob_terminal 0 (1 / 2) 2 4 4 ∅).
Defined.

(** C2, counterexample: at 4-4 in a race to 4 the second player is at the
    target, yet the call returns 1.0. *)
Lemma match_win_prob_both_at_target :
  (4 >= 4)%Z /\ match_win_prob_call 1 (1 / 2) 4 4 4 = Some 1 /\ 1 <> 0.
Proof.
  split; [lia |]. split; [| lra].
  unfold match_win_prob_call. rewrite match_win_prob_won by lia.
  reflexivity.
Qed.

(** C3: a call with enough depth returns the value of the unmemoised
    recurrence, for every [p], score and target; and a level race to 4 at
    [p = 0.5] is worth 0.5. *)
Theorem match_win_prob_memo_naive :
  (forall (p : R) (a b target : Z) (fuel : nat),
     (race_depth a b target < fuel)%nat ->
     match_win_prob_call fuel p a b target
       = Some (race_naive p target a b))
  /\ match_win_prob_call 9 0.5 0 0 4 = Some 0.5.
Proof.
  split.
  - intros p a b target fuel Hfuel.
    apply match_win_prob_call_naive. assumption.
  - rewrite match_win_prob_call_naive by (vm_compute; lia).
    f_equal. replace 0.5 with (1 / 2) by lra.
    apply race_naive_even. lia.
Qed.

Lemma match_win_prob_memo_naive_witness :
  (race_depth 0 0 2 < 5)%nat
  /\ match_win_prob_call 5 (1 / 3) 0 0 2 = Some (race_naive (1 / 3) 2 0 0).
Proof.
  assert (Hd : (race_depth 0 0 2 < 5)%nat) by (vm_compute; lia).
  split; [exact Hd |].
  exact (proj1 match_win_prob_memo_naive (1 / 3) 0%Z 0%Z 2%Z 5%nat Hd).
Defined.

(** C4 (amended): in exact real arithmetic the value returned for a fixed
    score and target does not decrease when [p] grows within [0, 1].  (The
    doubles of the code can lose an ulp: see the counterexample.) *)
Theorem match_win_prob_monotone (a b target : Z) (p q : R) (fuel : nat) :
  0 <= p -> p <= q -> q <= 1 ->
  (race_depth a b target < fuel)%nat ->
  exists vp vq,
    match_win_prob_call fuel p a b target = Some vp
    /\ match_win_prob_call fuel q a b target = Some vq
    /\ vp <= vq.
Proof.
  intros Hp Hpq Hq Hfuel.
  exists (race_naive p target a b), (race_naive q target a b).
  rewrite !match_win_prob_call_naive by assumption.
  split; [reflexivity |]. split; [reflexivity |].
  apply race_naive_mono_p; assumption.
Qed.

Lemma match_win_prob_monotone_witness :
  0 <= 1 / 4 /\ 1 / 4 <= 3 / 4 /\ 3 / 4 <= 1
  /\ (race_depth 0 0 1 < 3)%nat
  /\ exists vp vq,
       match_win_prob_call 3 (1 / 4) 0 0 1 = Some vp
       /\ match_win_prob_call 3 (3 / 4) 0 0 1 = Some vq
       /\ vp <= vq.
Proof.
  assert (Hd : (race_depth 0 0 1 < 3)%nat) by (vm_compute; lia).
  repeat split; try lra; try exact Hd.
  apply (match_win_prob_monotone 0 0 1 (1 / 4) (3 / 4) 3); try lra.
  exact Hd.
Defined.

(** C4, counterexample: on doubles, in a race to 10 from 0-0, the result at
    [p = 0.97500001] ([0x1.f3333389196ecp-1]) is below the result at
    [p = 0.975] ([0x1.f333333333333p-1]): 0.99999999999283551 against
    0.99999999999283562. *)
Lemma match_win_prob_double_not_monotone :
  (0x1.f333333333333p-1 <? 0x1.f3333389196ecp-1)%float = true
  /\ exists v w,
       match_win_prob_double_call 21 0x1.f333333333333p-1 0 0 10 = Some v
       /\ match_win_prob_double_call 21 0x1.f3333389196ecp-1 0 0 10 = Some w
       /\ (w <? v)%float = true.
Proof.
  split; [reflexivity |].
  eexists. eexists.
  split; [vm_compute; reflexivity |].
  split; [vm_compute; reflexivity |].
  reflexivity.
Qed.




(** C7: each recursive call raises [a + b] by one, to at most
    [2 * target - 1], and lowers [race_depth]; so a call allowed a depth
    above [race_depth] returns, whatever [p], the score, the target and the
    memo it starts from, and allowing more depth returns the same. *)
Theorem match_win_prob_terminates :
  (forall (target : Z) (s s' : Z * Z),
     rec_call target s s' ->
     (fst s' + snd s' = fst s + snd s + 1)%Z
     /\ (fst s' + snd s' <= 2 * target - 1)%Z
     /\ (race_depth (fst s') (snd s') target
         < race_depth (fst s) (snd s) target)%nat)
  /\ (forall (p : R) (a b target : Z) (memo : gmap (Z * Z) R) (fuel : nat),
        (race_depth a b target < fuel)%nat ->
        exists v memo',
          match_win_prob fuel p a b target memo = Some (v, memo')
          /\ forall fuel', (fuel <= fuel')%nat ->
               match_win_prob fuel' p a b target memo = Some (v, memo')).
Proof.
  split.
  - intros target s s' Hcall.
    destruct Hcall as [a b Ha Hb | a b Ha Hb]; cbn [fst snd];
      unfold race_depth; lia.
  - intros p a b target memo fuel Hfuel.
    destruct (match_win_prob_returns fuel p a b target memo Hfuel)
      as (v & memo' & Hrun).
    exists v, memo'. split; [assumption |].
    intros fuel' Hle.
    apply (match_win_prob_fuel_mono fuel); assumption.
Qed.

Lemma match_win_prob_terminates_witness :
  rec_call 4 (0, 0)%Z (0 + 1, 0)%Z
  /\ (race_depth 0 0 4 < 9)%nat
  /\ exists v memo', match_win_prob 9 (1 / 2) 0 0 4 ∅ = Some (v, memo').
Proof.
  assert (Hd : (race_depth 0 0 4 < 9)%nat) by (vm_compute; lia).
  split; [constructor; lia |]. split; [exact Hd |].
  destruct match_win_prob_terminates as [_ Hret].
  destruct (Hret (1 / 2) 0%Z 0%Z 4%Z ∅ 9%nat Hd) as (v & memo' & Hrun & _).
  exists v, memo'. exact Hrun.
Defined.

(** C8 (amended): [logit] and [season_strength] return for all real
    arguments: no division meets a zero divisor and [math.log] only sees
    positive numbers ([clip] is [max] and [min] alone).  [inv_logit z]
    returns when [exp (- z)] fits a double and raises [OverflowError]
    otherwise.  [live_boost] returns when [max(1, k_shots)] fits a double.
    [match_win_prob] returns when the call depth allowed is above
    [race_depth]; from an empty memo and with [b < target] it runs out of
    depth, a [RecursionError], when at most [target - a] calls are
    allowed. *)
Theorem core_functions_total :
  (forall p, exists v, logit p = Ok v)
  /\ (forall z, exp (- z) <= DBL_MAX -> exists v, inv_logit z = Ok v)
  /\ (forall z, DBL_MAX < exp (- z) -> inv_logit z = Raise OverflowError)
  /\ (forall points_scored matches_played win_rate avg_shot_time b50 b100
             w_wr w_ppm w_b50 w_b100 w_shot scale,
        exists v,
          season_strength points_scored matches_played win_rate avg_shot_time
            b50 b100 w_wr w_ppm w_b50 w_b100 w_shot scale = Ok v)
  /\ (forall potA potB stA stB b50A b50B b100A b100B hbA hbB
             ptsA ptsB shotsA shotsB totA totB
             w_pot w_st w_b50 w_b100 w_hb w_pts w_shots w_tot
             sd_pot sd_st sd_b50 sd_b100 sd_hb
             sd_pts_share sd_shots_share sd_tot_share k_shots beta,
        IZR (Z.max 1 k_shots) <= DBL_MAX ->
        exists v,
          live_boost potA potB stA stB b50A b50B b100A b100B hbA hbB
            ptsA ptsB shotsA shotsB totA totB
            w_pot w_st w_b50 w_b100 w_hb w_pts w_shots w_tot
            sd_pot sd_st sd_b50 sd_b100 sd_hb
            sd_pts_share sd_shots_share sd_tot_share k_shots beta = Ok v)
  /\ (forall p a b target memo fuel,
        (race_depth a b target < fuel)%nat ->
        exists v memo',
          match_win_prob fuel p a b target memo = Some (v, memo'))
  /\ (forall p a b target fuel,
        (b < target)%Z -> (fuel <= Z.to_nat (target - a))%nat ->
        match_win_prob fuel p a b target ∅ = None).
Proof.
  repeat apply conj.
  - apply logit_returns.
  - intros z Hz. rewrite inv_logit_value by assumption. eauto.
  - apply inv_logit_overflow.
  - apply season_strength_returns.
  - intros. rewrite live_boost_value. eauto.
  - intros p a b target memo fuel Hfuel.
    apply match_win_prob_returns. assumption.
  - intros p a b target fuel Hb Hfuel.
    apply match_win_prob_out_of_depth; try assumption.
    intros x _. apply lookup_empty.
Qed.

Lemma core_functions_total_witness :
  exp (Ropp 5) <= DBL_MAX /\ exists v, inv_logit 5 = Ok v.
Proof.
  assert (Hexp : exp (Ropp 5) <= DBL_MAX) by (apply exp_neg_fits; lra).
  split; [exact Hexp |].
  exact (proj1 (proj2 core_functions_total) 5 Hexp).
Defined.

(** C8, counterexample: [inv_logit(-1100)] calls [math.exp(1100)], whose
    result is beyond the largest double. *)
Lemma inv_logit_raises_at_minus_1100 :
  inv_logit (-1100) = Raise OverflowError.
Proof.
  apply inv_logit_overflow.
  replace (- -1100) with 1100 by lra.
  apply exp_1100_overflows.
Qed.

(** C9: the returned value is a probability. *)
Theorem match_win_prob_range (p : R) (a b target : Z) (fuel : nat) :
  0 <= p <= 1 ->
  (race_depth a b target < fuel)%nat ->
  exists v, match_win_prob_call fuel p a b target = Some v /\ 0 <= v <= 1.
Proof.
  intros Hp Hfuel. exists (race_naive p target a b).
  split; [apply match_win_prob_call_naive; assumption |].
  apply race_naive_range. assumption.
Qed.

Lemma match_win_prob_range_witness :
  0 <= 1 / 2 <= 1 /\ (race_depth 0 0 4 < 9)%nat
  /\ exists v, match_win_prob_call 9 (1 / 2) 0 0 4 = Some v /\ 0 <= v <= 1.
Proof.
  assert (Hd : (race_depth 0 0 4 < 9)%nat) by (vm_compute; lia).
  split; [lra |]. split; [exact Hd |].
  apply (match_win_prob_range (1 / 2) 0 0 4 9); [lra | exact Hd].
Defined.

(** * Further properties of the helpers *)

(** ** [clip] *)

(** X1: with ordered bounds the result lies between them, and [clip] leaves
    [x] alone exactly when [x] already does. *)
Theorem clip_range_fixpoints (x lo hi : R) :
  lo <= hi ->
  lo <= clip x lo hi <= hi /\ (clip x lo hi = x <-> lo <= x <= hi).
Proof.
  intros H. unfold clip, Rmax, Rmin.
  destruct (Rle_dec hi x); destruct (Rle_dec lo _); repeat split; intros; lra.
Qed.

Lemma clip_range_fixpoints_witness :
  0 <= 1 /\ 0 <= clip 2 0 1 <= 1 /\ (clip 2 0 1 = 2 <-> 0 <= 2 <= 1).
Proof.
  split; [lra |]. apply (clip_range_fixpoints 2 0 1). lra.
Defined.

(** X2: with the bounds the wrong way round, [max(lo, min(hi, x))] is [lo]
    whatever [x] is. *)
Theorem clip_inverted_bounds (x lo hi : R) : hi <= lo -> clip x lo hi = lo.
Proof.
  intros H. unfold clip, Rmax, Rmin.
  destruct (Rle_dec hi x); destruct (Rle_dec lo _); lra.
Qed.

Lemma clip_inverted_bounds_witness : 0 <= 1 /\ clip 5 1 0 = 1.
Proof.
  split; [lra |]. apply (clip_inverted_bounds 5 1 0). lra.
Defined.

Lemma clip_spec (x lo hi : R) :
  (hi <= x /\ lo <= hi /\ clip x lo hi = hi)
  \/ (hi <= x /\ hi < lo /\ clip x lo hi = lo)
  \/ (x < hi /\ lo <= x /\ clip x lo hi = x)
  \/ (x < hi /\ x < lo /\ clip x lo hi = lo).
Proof.
  unfold clip, Rmax, Rmin.
  destruct (Rle_dec hi x); destruct (Rle_dec lo _); lra.
Qed.

(** Case analysis on every [clip] in sight, closed by linear arithmetic. *)
Ltac clip_cases :=
  repeat match goal with
    | |- context [clip ?x ?lo ?hi] =>
        let E := fresh "E" in
        destruct (clip_spec x lo hi)
          as [(? & ? & E) | [(? & ? & E) | [(? & ? & E) | (? & ? & E)]]];
        rewrite E in *; clear E
    | H : context [clip ?x ?lo ?hi] |- _ =>
        let E := fresh "E" in
        destruct (clip_spec x lo hi)
          as [(? & ? & E) | [(? & ? & E) | [(? & ? & E) | (? & ? & E)]]];
        rewrite E in *; clear E
    end;
  try lra.

Lemma clip_low (x lo hi : R) : lo <= hi -> x <= lo -> clip x lo hi = lo.
Proof. intros. clip_cases. Qed.

Lemma clip_high (x lo hi : R) : lo <= hi -> hi <= x -> clip x lo hi = hi.
Proof. intros. clip_cases. Qed.

Lemma clip_mono (x y lo hi : R) : x <= y -> clip x lo hi <= clip y lo hi.
Proof. intros. clip_cases. Qed.

(** ** [logit] and [inv_logit] *)

Lemma logit_clamped (p : R) :
  logit p =
    Ok (ln (clip p 1e-6 (1 - 1e-6) / (1 - clip p 1e-6 (1 - 1e-6)))).
Proof.
  pose proof (clip_bounds p 1e-6 (1 - 1e-6) ltac:(lra)) as Hc.
  unfold logit. rewrite py_div_ok by lra. cbn [mbind py_bind].
  apply math_log_ok. apply Rdiv_lt_0_compat; lra.
Qed.

Lemma odds_bounds (c : R) :
  1e-6 <= c <= 1 - 1e-6 -> / 999999 <= c / (1 - c) <= 999999.
Proof.
  intros Hc. split.
  - apply Rmult_le_reg_r with (1 - c); [lra |].
    unfold Rdiv. rewrite Rmult_assoc, Rinv_l by lra. lra.
  - apply Rmult_le_reg_r with (1 - c); [lra |].
    unfold Rdiv. rewrite Rmult_assoc, Rinv_l by lra. lra.
Qed.

Lemma odds_mono (c d : R) :
  0 < c -> c <= d -> d < 1 -> c / (1 - c) <= d / (1 - d).
Proof.
  intros Hc Hcd Hd.
  apply Rmult_le_reg_r with ((1 - c) * (1 - d)).
  - apply Rmult_lt_0_compat; lra.
  - replace (c / (1 - c) * ((1 - c) * (1 - d))) with (c * (1 - d))
      by (field; lra).
    replace (d / (1 - d) * ((1 - c) * (1 - d))) with (d * (1 - c))
      by (field; lra).
    nra.
Qed.

Lemma ln_le (x y : R) : 0 < x -> x <= y -> ln x <= ln y.
Proof.
  intros Hx [Hlt | ->]; [| lra].
  apply Rlt_le. apply ln_increasing; assumption.
Qed.

Lemma inv_logit_ln_odds (c : R) :
  1e-6 <= c <= 1 - 1e-6 -> inv_logit (ln (c / (1 - c))) = Ok c.
Proof.
  intros Hc.
  assert (Hq : 0 < c / (1 - c)) by (apply Rdiv_lt_0_compat; lra).
  assert (Hexp : exp (- ln (c / (1 - c))) = (1 - c) / c).
  { rewrite exp_Ropp, exp_ln by assumption. field. lra. }
  rewrite inv_logit_value.
  - rewrite Hexp. f_equal. field. lra.
  - rewrite Hexp. apply Rle_trans with 1e6; [| apply DBL_MAX_million].
    apply Rmult_le_reg_r with c; [lra |].
    unfold Rdiv at 1. rewrite Rmult_assoc, Rinv_l by lra. lra.
Qed.

(** X3: [inv_logit] never fails on a value of [logit]: for every real [p]
    the composition returns, with a result strictly between 0 and 1,
    because [logit] keeps its value far inside the range of [math.exp]. *)
Theorem inv_logit_logit_returns (p : R) :
  exists v, (x ← logit p; inv_logit x) = Ok v /\ 0 < v < 1.
Proof.
  pose proof (clip_bounds p 1e-6 (1 - 1e-6) ltac:(lra)) as Hc.
  exists (clip p 1e-6 (1 - 1e-6)).
  rewrite logit_clamped. cbn [mbind py_bind].
  split; [apply inv_logit_ln_odds; assumption | lra].
Qed.

(** X6: [logit] is non-decreasing over all reals. *)
Theorem logit_monotone (p q : R) :
  p <= q ->
  exists v w, logit p = Ok v /\ logit q = Ok w /\ v <= w.
Proof.
  intros Hpq.
  pose proof (clip_bounds p 1e-6 (1 - 1e-6) ltac:(lra)) as Hp.
  pose proof (clip_bounds q 1e-6 (1 - 1e-6) ltac:(lra)) as Hq.
  pose proof (clip_mono p q 1e-6 (1 - 1e-6) Hpq) as Hmono.
  do 2 eexists. split; [apply logit_clamped |].
  split; [apply logit_clamped |].
  apply ln_le; [apply Rdiv_lt_0_compat; lra |].
  apply odds_mono; lra.
Qed.

Lemma logit_monotone_witness :
  0.25 <= 0.75
  /\ exists v w, logit 0.25 = Ok v /\ logit 0.75 = Ok w /\ v <= w.
Proof.
  split; [lra |]. apply (logit_monotone 0.25 0.75). lra.
Defined.

(** X7: [logit] saturates: every [p <= 1e-6] gives the value of [logit 0]
    and every [p >= 1 - 1e-6] the value of [logit 1], both finite, and
    every other value lies between the two. *)
Theorem logit_saturates (p : R) :
  exists v lo hi,
    logit p = Ok v /\ logit 0 = Ok lo /\ logit 1 = Ok hi
    /\ lo <= v <= hi
    /\ (p <= 1e-6 -> v = lo)
    /\ (1 - 1e-6 <= p -> v = hi).
Proof.
  pose proof (clip_bounds p 1e-6 (1 - 1e-6) ltac:(lra)) as Hc.
  do 3 eexists.
  split; [apply logit_clamped |].
  split; [apply logit_clamped |].
  split; [apply logit_clamped |].
  rewrite (clip_low 0), (clip_high 1) by lra.
  repeat split.
  - apply ln_le; [apply Rdiv_lt_0_compat; lra |]. apply odds_mono; lra.
  - apply ln_le; [apply Rdiv_lt_0_compat; lra |]. apply odds_mono; lra.
  - intros Hp. rewrite clip_low by lra. reflexivity.
  - intros Hp. rewrite clip_high by lra. reflexivity.
Qed.

Lemma exp_0_fits : exp 0 <= DBL_MAX.
Proof.
  rewrite exp_0. apply Rle_trans with 1e6; [lra | apply DBL_MAX_million].
Qed.

(** X9: [inv_logit] is non-decreasing, and a larger argument never
    overflows when a smaller one does not. *)
Theorem inv_logit_monotone (z1 z2 : R) :
  z1 <= z2 -> exp (- z1) <= DBL_MAX ->
  exists v1 v2, inv_logit z1 = Ok v1 /\ inv_logit z2 = Ok v2 /\ v1 <= v2.
Proof.
  intros Hz H1.
  assert (He : exp (- z2) <= exp (- z1)).
  { destruct Hz as [Hlt | ->]; [| lra].
    apply Rlt_le. apply exp_increasing. lra. }
  do 2 eexists. split; [apply inv_logit_value; assumption |].
  split; [apply inv_logit_value; lra |].
  pose proof (exp_pos (- z1)). pose proof (exp_pos (- z2)).
  unfold Rdiv. rewrite !Rmult_1_l.
  apply Rinv_le_contravar; lra.
Qed.

Lemma inv_logit_monotone_witness :
  0 <= 1 /\ exp (- 0) <= DBL_MAX
  /\ exists v1 v2, inv_logit 0 = Ok v1 /\ inv_logit 1 = Ok v2 /\ v1 <= v2.
Proof.
  assert (H0 : exp (- 0) <= DBL_MAX) by (rewrite Ropp_0; apply exp_0_fits).
  split; [lra |]. split; [exact H0 |].
  apply (inv_logit_monotone 0 1); [lra | exact H0].
Defined.

(** * Further properties of the two estimators *)

(** ** [season_strength] *)

Lemma season_strength_value
    (points_scored matches_played win_rate avg_shot_time b50 b100
     w_wr w_ppm w_b50 w_b100 w_shot scale : R) :
  season_strength points_scored matches_played win_rate avg_shot_time
    b50 b100 w_wr w_ppm w_b50 w_b100 w_shot scale
  = let mp := IZR (Z.max 1 (py_round matches_played)) in
    Ok (scale
        * (w_wr * (win_rate / 100 - 0.50)
           + w_ppm * ((points_scored / mp - 300) / 300)
           + w_b50 * ((b50 / mp - 1) / 1)
           + w_b100 * ((b100 / mp - 0.15) / 0.15)
           + w_shot * ((30 - avg_shot_time) / 30))).
Proof.
  unfold season_strength.
  pose proof (IZR_max_1_pos (py_round matches_played)) as Hmp.
  rewrite (Rmax_eq_r 0.3 1), (Rmax_eq_r 0.05 0.15) by lra.
  repeat (rewrite py_div_ok by lra; cbn [mbind py_bind]).
  reflexivity.
Qed.

Lemma py_round_IZR (n : Z) : py_round (IZR n) = n.
Proof.
  destruct (Int_part_frac_part_spec (IZR n) n 0 ltac:(lra) ltac:(lra))
    as [Hn Hf].
  unfold py_round. rewrite <- Hn, <- Hf.
  destruct (Rlt_dec 0 (1 / 2)); [reflexivity | lra].
Qed.

Lemma py_round_below (x : R) : x < 3 / 2 -> (py_round x <= 1)%Z.
Proof.
  intros Hx.
  pose proof (Rplus_Int_part_frac_part x) as Hsplit.
  pose proof (base_fp x) as [Hf0 Hf1].
  assert (Hn : (Int_part x <= 1)%Z).
  { apply Z.lt_succ_r. apply lt_IZR. change (IZR (Z.succ 1)) with 2. lra. }
  unfold py_round.
  destruct (Rlt_dec (frac_part x) (1 / 2)) as [Hlt | Hge]; [lia |].
  assert (Hn0 : (Int_part x <= 0)%Z).
  { apply Z.lt_succ_r. apply lt_IZR. change (IZR (Z.succ 0)) with 1. lra. }
  destruct (Rlt_dec (1 / 2) (frac_part x)); [lia |].
  destruct (Z.even (Int_part x)); lia.
Qed.

(** X10: a player exactly at the centres of the source (300 points, one
    fifty and 0.15 hundreds a match, a 30-second shot, a 50 per cent win
    rate) has strength 0, whatever the number of matches, the weights and
    the scale. *)
Theorem season_strength_at_centres
    (m : Z) (w_wr w_ppm w_b50 w_b100 w_shot scale : R) :
  (1 <= m)%Z ->
  season_strength (300 * IZR m) (IZR m) 50 30 (IZR m) (0.15 * IZR m)
    w_wr w_ppm w_b50 w_b100 w_shot scale = Ok 0.
Proof.
  intros Hm. rewrite season_strength_value. cbv zeta.
  rewrite py_round_IZR, Z.max_r by lia.
  assert (Hpos : 0 < IZR m) by (apply IZR_lt; lia).
  assert (Hdiv : forall c, c * IZR m / IZR m = c).
  { intros c. unfold Rdiv. rewrite Rmult_assoc, Rinv_r by lra. lra. }
  rewrite !Hdiv. rewrite <- (Rmult_1_l (IZR m)) at 1. rewrite Hdiv.
  f_equal. lra.
Qed.

Lemma season_strength_at_centres_witness :
  (1 <= 10)%Z
  /\ season_strength (300 * 10) 10 50 30 10 (0.15 * 10)
       0.82 0.70 0.60 0.40 0.46 0.72 = Ok 0.
Proof.
  split; [lia |].
  apply (season_strength_at_centres 10 0.82 0.70 0.60 0.40 0.46 0.72). lia.
Defined.

(** X11: any number of matches below one and a half, zero and negative
    numbers included, is counted as one match. *)
Theorem season_strength_matches_floor
    (points_scored matches_played win_rate avg_shot_time b50 b100
     w_wr w_ppm w_b50 w_b100 w_shot scale : R) :
  matches_played < 3 / 2 ->
  season_strength points_scored matches_played win_rate avg_shot_time
    b50 b100 w_wr w_ppm w_b50 w_b100 w_shot scale
  = season_strength points_scored 1 win_rate avg_shot_time
      b50 b100 w_wr w_ppm w_b50 w_b100 w_shot scale.
Proof.
  intros Hmp. rewrite !season_strength_value. cbv zeta.
  rewrite (Z.max_l 1 (py_round matches_played))
    by (apply py_round_below; assumption).
  rewrite (py_round_IZR 1). reflexivity.
Qed.

Lemma season_strength_matches_floor_witness :
  0 < 3 / 2
  /\ season_strength 3000 0 60 25 20 5 0.82 0.70 0.60 0.40 0.46 0.72
     = season_strength 3000 1 60 25 20 5 0.82 0.70 0.60 0.40 0.46 0.72.
Proof.
  split; [lra |].
  apply (season_strength_matches_floor
           3000 0 60 25 20 5 0.82 0.70 0.60 0.40 0.46 0.72).
  lra.
Defined.

(** X12: with non-negative weights and scale, and the same number of
    matches, a player who scores at least as many points, fifties and
    hundreds, wins at least as often and plays at least as fast is at least
    as strong. *)
Theorem season_strength_monotone
    (matches_played w_wr w_ppm w_b50 w_b100 w_shot scale : R)
    (points win_rate shot_time b50 b100 : R)
    (points' win_rate' shot_time' b50' b100' : R) :
  0 <= w_wr -> 0 <= w_ppm -> 0 <= w_b50 -> 0 <= w_b100 -> 0 <= w_shot ->
  0 <= scale ->
  points <= points' -> win_rate <= win_rate' -> shot_time' <= shot_time ->
  b50 <= b50' -> b100 <= b100' ->
  exists v v',
    season_strength points matches_played win_rate shot_time b50 b100
      w_wr w_ppm w_b50 w_b100 w_shot scale = Ok v
    /\ season_strength points' matches_played win_rate' shot_time' b50' b100'
         w_wr w_ppm w_b50 w_b100 w_shot scale = Ok v'
    /\ v <= v'.
Proof.
  intros Hwr Hppm Hb50 Hb100 Hshot Hscale Hp Hw Hs H50 H100.
  do 2 eexists. split; [apply season_strength_value |].
  split; [apply season_strength_value |]. cbv zeta.
  pose proof (IZR_max_1_pos (py_round matches_played)) as Hmp.
  set (mp := IZR (Z.max 1 (py_round matches_played))) in *.
  assert (Hinv : 0 < / mp) by (apply Rinv_0_lt_compat; assumption).
  apply Rmult_le_compat_l; [assumption |].
  repeat apply Rplus_le_compat; apply Rmult_le_compat_l; try assumption.
  - lra.
  - unfold Rdiv. nra.
  - unfold Rdiv. nra.
  - unfold Rdiv. nra.
  - lra.
Qed.

Lemma season_strength_monotone_witness :
  0 <= 0.82 /\ 0 <= 0.70 /\ 0 <= 0.60 /\ 0 <= 0.40 /\ 0 <= 0.46
  /\ 0 <= 0.72
  /\ 2500 <= 3000 /\ 45 <= 60 /\ 25 <= 32 /\ 12 <= 20 /\ 2 <= 5
  /\ exists v v',
       season_strength 2500 10 45 32 12 2 0.82 0.70 0.60 0.40 0.46 0.72
         = Ok v
       /\ season_strength 3000 10 60 25 20 5 0.82 0.70 0.60 0.40 0.46 0.72
          = Ok v'
       /\ v <= v'.
Proof.
  repeat (split; [lra |]).
  apply (season_strength_monotone 10 0.82 0.70 0.60 0.40 0.46 0.72
           2500 45 32 12 2 3000 60 25 20 5); lra.
Defined.

(** ** [live_boost] *)

Lemma zscore_mono (d d' sd : R) : d <= d' -> zscore d sd <= zscore d' sd.
Proof.
  intros H. unfold zscore. apply clip_mono.
  destruct (Rmax_floor_pos sd 1e-9) as [Hpos _]; [lra |].
  unfold Rdiv. apply Rmult_le_compat_r; [| assumption].
  apply Rlt_le. apply Rinv_0_lt_compat. assumption.
Qed.

Lemma live_w_rel_range (shotsA shotsB : R) (k_shots : Z) :
  0 <= live_w_rel shotsA shotsB k_shots <= 1.
Proof. unfold live_w_rel. apply clip_bounds. lra. Qed.

Section LiveBoostMore.

Variables potA potB stA stB b50A b50B b100A b100B hbA hbB ptsA ptsB : R.
Variables shotsA shotsB totA totB : R.
Variables w_pot w_st w_b50 w_b100 w_hb w_pts w_shots w_tot : R.
Variables sd_pot sd_st sd_b50 sd_b100 sd_hb : R.
Variables sd_pts_share sd_shots_share sd_tot_share : R.
Variable k_shots : Z.
Variable beta : R.

(** X14: the reliability weight ramps linearly: with a shot total between
    1 and [max(1, k_shots)] the boost is [beta * (total / max(1, k_shots))
    * S], and from [max(1, k_shots)] shots on it is [beta * S]. *)
Theorem live_boost_reliability_ramp :
  1 <= shotsA + shotsB ->
  live_boost potA potB stA stB b50A b50B b100A b100B hbA hbB
    ptsA ptsB shotsA shotsB totA totB
    w_pot w_st w_b50 w_b100 w_hb w_pts w_shots w_tot
    sd_pot sd_st sd_b50 sd_b100 sd_hb
    sd_pts_share sd_shots_share sd_tot_share k_shots beta
  = Ok (beta
        * (if Rle_dec (IZR (Z.max 1 k_shots)) (shotsA + shotsB)
           then 1
           else (shotsA + shotsB) / IZR (Z.max 1 k_shots))
        * live_S potA potB stA stB b50A b50B b100A b100B hbA hbB
            ptsA ptsB shotsA shotsB totA
            w_pot w_st w_b50 w_b100 w_hb w_pts w_shots w_tot
            sd_pot sd_st sd_b50 sd_b100 sd_hb
            sd_pts_share sd_shots_share sd_tot_share).
Proof.
  intros Hshots. rewrite live_boost_value. unfold live_w_rel.
  rewrite (Rmax_eq_r 1 (shotsA + shotsB)) by assumption.
  assert (Hk : 1 <= IZR (Z.max 1 k_shots)) by (apply IZR_le; lia).
  assert (Hinv : 0 < / IZR (Z.max 1 k_shots))
    by (apply Rinv_0_lt_compat; lra).
  destruct (Rle_dec (IZR (Z.max 1 k_shots)) (shotsA + shotsB))
    as [Hfull | Hpart].
  - rewrite clip_high; [reflexivity | lra |].
    apply Rmult_le_reg_r with (IZR (Z.max 1 k_shots)); [lra |].
    unfold Rdiv. rewrite Rmult_assoc, Rinv_l by lra. lra.
  - rewrite clip_id; [reflexivity |]. split.
    + unfold Rdiv. nra.
    + apply Rmult_le_reg_r with (IZR (Z.max 1 k_shots)); [lra |].
      unfold Rdiv. rewrite Rmult_assoc, Rinv_l by lra. lra.
Qed.

(** X15: with [k_shots] at most 1, zero and negative values included, the
    divisor is floored at 1 and the boost has full weight at once, even
    with no shots taken. *)
Theorem live_boost_small_k :
  (k_shots <= 1)%Z ->
  live_boost potA potB stA stB b50A b50B b100A b100B hbA hbB
    ptsA ptsB shotsA shotsB totA totB
    w_pot w_st w_b50 w_b100 w_hb w_pts w_shots w_tot
    sd_pot sd_st sd_b50 sd_b100 sd_hb
    sd_pts_share sd_shots_share sd_tot_share k_shots beta
  = Ok (beta * 1
        * live_S potA potB stA stB b50A b50B b100A b100B hbA hbB
            ptsA ptsB shotsA shotsB totA
            w_pot w_st w_b50 w_b100 w_hb w_pts w_shots w_tot
            sd_pot sd_st sd_b50 sd_b100 sd_hb
            sd_pts_share sd_shots_share sd_tot_share).
Proof.
  intros Hk. rewrite live_boost_value. unfold live_w_rel.
  rewrite Z.max_l by assumption.
  rewrite clip_high; [reflexivity | lra |].
  unfold Rdiv. rewrite Rinv_1, Rmult_1_r. apply Rmax_l.
Qed.

(** X17: with a non-negative pot weight and [beta], raising player A's pot
    rate never lowers the boost. *)
Theorem live_boost_monotone_pot (potA' : R) :
  0 <= w_pot -> 0 <= beta -> potA <= potA' ->
  exists v v',
    live_boost potA potB stA stB b50A b50B b100A b100B hbA hbB
      ptsA ptsB shotsA shotsB totA totB
      w_pot w_st w_b50 w_b100 w_hb w_pts w_shots w_tot
      sd_pot sd_st sd_b50 sd_b100 sd_hb
      sd_pts_share sd_shots_share sd_tot_share k_shots beta = Ok v
    /\ live_boost potA' potB stA stB b50A b50B b100A b100B hbA hbB
         ptsA ptsB shotsA shotsB totA totB
         w_pot w_st w_b50 w_b100 w_hb w_pts w_shots w_tot
         sd_pot sd_st sd_b50 sd_b100 sd_hb
         sd_pts_share sd_shots_share sd_tot_share k_shots beta = Ok v'
    /\ v <= v'.
Proof.
  intros Hw Hbeta Hpot.
  do 2 eexists. split; [apply live_boost_value |].
  split; [apply live_boost_value |].
  pose proof (live_w_rel_range shotsA shotsB k_shots) as Hrel.
  apply Rmult_le_compat_l; [nra |].
  unfold live_S. repeat apply Rplus_le_compat; try apply Rle_refl.
  apply Rmult_le_compat_l; [assumption |].
  apply zscore_mono. lra.
Qed.

End LiveBoostMore.

Lemma live_boost_reliability_ramp_witness :
  1 <= 40 + 35
  /\ live_boost 60 50 25 30 1 0 0 0 70 40 120 80 40 35 55 45
       0.52 0.44 0.34 0.12 0.20 0.68 0.43 0.44
       8 2.2 1.8 1 30 0.18 0.18 0.16 150 0.25
     = Ok (0.25
           * (if Rle_dec (IZR (Z.max 1 150)) (40 + 35)
              then 1 else (40 + 35) / IZR (Z.max 1 150))
           * live_S 60 50 25 30 1 0 0 0 70 40 120 80 40 35 55
               0.52 0.44 0.34 0.12 0.20 0.68 0.43 0.44
               8 2.2 1.8 1 30 0.18 0.18 0.16).
Proof.
  split; [lra |].
  apply (live_boost_reliability_ramp
           60 50 25 30 1 0 0 0 70 40 120 80 40 35 55 45
           0.52 0.44 0.34 0.12 0.20 0.68 0.43 0.44
           8 2.2 1.8 1 30 0.18 0.18 0.16 150 0.25).
  lra.
Defined.

Lemma live_boost_small_k_witness :
  (0 <= 1)%Z
  /\ live_boost 60 50 25 30 1 0 0 0 70 40 120 80 0 0 55 45
       0.52 0.44 0.34 0.12 0.20 0.68 0.43 0.44
       8 2.2 1.8 1 30 0.18 0.18 0.16 0 0.25
     = Ok (0.25 * 1
           * live_S 60 50 25 30 1 0 0 0 70 40 120 80 0 0 55
               0.52 0.44 0.34 0.12 0.20 0.68 0.43 0.44
               8 2.2 1.8 1 30 0.18 0.18 0.16).
Proof.
  split; [lia |].
  apply (live_boost_small_k
           60 50 25 30 1 0 0 0 70 40 120 80 0 0 55 45
           0.52 0.44 0.34 0.12 0.20 0.68 0.43 0.44
           8 2.2 1.8 1 30 0.18 0.18 0.16 0 0.25).
  lia.
Defined.

Lemma live_boost_monotone_pot_witness :
  0 <= 0.52 /\ 0 <= 0.25 /\ 60 <= 65
  /\ exists v v',
       live_boost 60 50 25 30 1 0 0 0 70 40 120 80 40 35 55 45
         0.52 0.44 0.34 0.12 0.20 0.68 0.43 0.44
         8 2.2 1.8 1 30 0.18 0.18 0.16 150 0.25 = Ok v
       /\ live_boost 65 50 25 30 1 0 0 0 70 40 120 80 40 35 55 45
            0.52 0.44 0.34 0.12 0.20 0.68 0.43 0.44
            8 2.2 1.8 1 30 0.18 0.18 0.16 150 0.25 = Ok v'
       /\ v <= v'.
Proof.
  repeat (split; [lra |]).
  apply (live_boost_monotone_pot
           60 50 25 30 1 0 0 0 70 40 120 80 40 35 55 45
           0.52 0.44 0.34 0.12 0.20 0.68 0.43 0.44
           8 2.2 1.8 1 30 0.18 0.18 0.16 150 0.25 65); lra.
Defined.

(** * Further properties of [App.update_all] and [App.compare_value] *)

Lemma sigmoid_2_value : inv_logit (2 - 0 + 0) = Ok (1 / (1 + exp (Ropp 2))).
Proof.
  replace (2 - 0 + 0) with 2 by lra.
  apply inv_logit_value. apply exp_neg_fits. lra.
Qed.

(** X18: as long as [math.exp] does not overflow, the step produces a
    per-frame probability between 0 and 1, whatever [lambda], the cap
    switch, [pmin] and [pmax] are. *)
Theorem update_all_p_frame_range
    (SA SB boost lambda_shrink : R) (cap_on : bool) (pmin pmax : R) :
  exp (- (SA - SB + boost)) <= DBL_MAX ->
  exists v,
    update_all_p_frame SA SB boost lambda_shrink cap_on pmin pmax = Ok v
    /\ 0 <= v <= 1.
Proof.
  intros Hexp. rewrite update_all_p_frame_value by assumption. cbv zeta.
  eexists. split; [reflexivity |].
  pose proof (sigmoid_range (SA - SB + boost)) as Hraw.
  pose proof (clip_bounds lambda_shrink 0 1 ltac:(lra)) as Hlam.
  pose proof (clip_bounds pmin 0 0.5 ltac:(lra)) as Hmin.
  pose proof (clip_bounds pmax 0.5 1 ltac:(lra)) as Hmax.
  set (p_raw := 1 / (1 + exp (- (SA - SB + boost)))) in *.
  set (lam := clip lambda_shrink 0 1) in *.
  set (lo := clip pmin 0 0.5) in *. set (hi := clip pmax 0.5 1) in *.
  assert (Hp : 0 <= 0.5 + lam * (p_raw - 0.5) <= 1) by nra.
  destruct cap_on; [| assumption].
  pose proof (clip_bounds (0.5 + lam * (p_raw - 0.5)) lo hi ltac:(lra)).
  lra.
Qed.

Lemma update_all_p_frame_range_witness :
  exp (- (2 - 0 + 0)) <= DBL_MAX
  /\ exists v,
       update_all_p_frame 2 0 0 1 true 0.45 0.66 = Ok v /\ 0 <= v <= 1.
Proof.
  assert (Hexp : exp (- (2 - 0 + 0)) <= DBL_MAX).
  { replace (- (2 - 0 + 0)) with (Ropp 2) by lra. apply exp_neg_fits. lra. }
  split; [exact Hexp |].
  apply (update_all_p_frame_range 2 0 0 1 true 0.45 0.66 Hexp).
Defined.

(** X19: the shrink and the cap never change the favourite: the per-frame
    probability is never on the other side of 0.5 from the raw [inv_logit]
    value. *)
Theorem update_all_p_frame_keeps_side
    (SA SB boost lambda_shrink : R) (cap_on : bool) (pmin pmax p_raw : R) :
  inv_logit (SA - SB + boost) = Ok p_raw ->
  exists v,
    update_all_p_frame SA SB boost lambda_shrink cap_on pmin pmax = Ok v
    /\ 0 <= (p_raw - 0.5) * (v - 0.5).
Proof.
  intros Hraw. unfold update_all_p_frame. rewrite Hraw.
  cbn [mbind py_bind]. rewrite cap_interval_value.
  pose proof (clip_bounds lambda_shrink 0 1 ltac:(lra)) as Hlam.
  pose proof (clip_bounds pmin 0 0.5 ltac:(lra)) as Hmin.
  pose proof (clip_bounds pmax 0.5 1 ltac:(lra)) as Hmax.
  set (lam := clip lambda_shrink 0 1) in *.
  set (lo := clip pmin 0 0.5) in *. set (hi := clip pmax 0.5 1) in *.
  set (q := 0.5 + lam * (p_raw - 0.5)).
  assert (Hq1 : 0.5 <= p_raw -> 0.5 <= q) by (unfold q; intros; nra).
  assert (Hq2 : p_raw <= 0.5 -> q <= 0.5) by (unfold q; intros; nra).
  assert (Hside : forall v,
            (0.5 <= p_raw -> 0.5 <= v) -> (p_raw <= 0.5 -> v <= 0.5) ->
            0 <= (p_raw - 0.5) * (v - 0.5)).
  { intros v H1 H2. destruct (Rle_dec 0.5 p_raw) as [Hge | Hlt].
    - specialize (H1 Hge). nra.
    - specialize (H2 ltac:(lra)). nra. }
  destruct cap_on; cbn [mret py_ret]; eexists; (split; [reflexivity |]);
    apply Hside; intros H; try (apply Hq1; assumption);
    try (apply Hq2; assumption).
  - specialize (Hq1 H). clip_cases.
  - specialize (Hq2 H). clip_cases.
Qed.

Lemma update_all_p_frame_keeps_side_witness :
  inv_logit (2 - 0 + 0) = Ok (1 / (1 + exp (Ropp 2)))
  /\ exists v,
       update_all_p_frame 2 0 0 0.7 true 0.45 0.66 = Ok v
       /\ 0 <= (1 / (1 + exp (Ropp 2)) - 0.5) * (v - 0.5).
Proof.
  split; [exact sigmoid_2_value |].
  apply (update_all_p_frame_keeps_side 2 0 0 0.7 true 0.45 0.66
           (1 / (1 + exp (Ropp 2))) sigmoid_2_value).
Defined.

Lemma race_target_majority (bestof : Z) :
  (bestof < 2 * race_target bestof)%Z.
Proof.
  unfold race_target.
  pose proof (Z.div_mod bestof 2 ltac:(lia)) as Hdm.
  pose proof (Z.mod_pos_bound bestof 2 ltac:(lia)) as Hmod.
  lia.
Qed.

(** X20: with the target [bestof//2 + 1], at a score that fits the best-of
    ([a + b <= bestof]) at most one player is at the target; the match
    probability shown is then 1 when A is there and 0 when B is. *)
Theorem update_all_p_match_decided
    (fuel : nat) (p_frame : R) (bestof a_won b_won : Z) :
  (a_won + b_won <= bestof)%Z ->
  ~ ((race_target bestof <= a_won)%Z /\ (race_target bestof <= b_won)%Z)
  /\ ((race_target bestof <= a_won)%Z ->
      update_all_p_match (S fuel) p_frame bestof a_won b_won = Some 1)
  /\ ((race_target bestof <= b_won)%Z ->
      update_all_p_match (S fuel) p_frame bestof a_won b_won = Some 0).
Proof.
  intros Hfit. pose proof (race_target_majority bestof) as Hmaj.
  unfold update_all_p_match, match_win_prob_call. cbv zeta.
  repeat split.
  - lia.
  - intros Ha. rewrite match_win_prob_won by lia. reflexivity.
  - intros Hb. rewrite match_win_prob_lost by lia. reflexivity.
Qed.

Lemma update_all_p_match_decided_witness :
  (2 + 4 <= 7)%Z
  /\ ~ ((race_target 7 <= 2)%Z /\ (race_target 7 <= 4)%Z)
  /\ ((race_target 7 <= 2)%Z ->
      update_all_p_match 1 0.6 7 2 4 = Some 1)
  /\ ((race_target 7 <= 4)%Z ->
      update_all_p_match 1 0.6 7 2 4 = Some 0).
Proof.
  split; [lia |].
  apply (update_all_p_match_decided 0 0.6 7 2 4). lia.
Defined.

Lemma fair_odds_value (p : R) : fair_odds p = Ok (1 / Rmax 1e-9 p).
Proof.
  unfold fair_odds. apply py_div_ok.
  destruct (Rmax_floor_pos p 1e-9) as [_ H]; lra.
Qed.

(** X21: the fair price never fails: it is positive and at most [1e9] for
    every real [p], and at least 1 when [p <= 1]. *)
Theorem fair_odds_bounds (p : R) :
  exists o,
    fair_odds p = Ok o /\ 0 < o <= 1e9 /\ (p <= 1 -> 1 <= o).
Proof.
  eexists. split; [apply fair_odds_value |].
  destruct (Rmax_floor_pos p 1e-9) as [_ Hpos]; [lra |].
  pose proof (Rmax_l 1e-9 p) as Hfloor.
  assert (Hinv : 0 < / Rmax 1e-9 p) by (apply Rinv_0_lt_compat; assumption).
  assert (Ho : 1 / Rmax 1e-9 p = / Rmax 1e-9 p) by lra.
  rewrite Ho. clear Ho.
  repeat split.
  - assumption.
  - replace 1e9 with (/ 1e-9) by (apply Rinv_eq_reg; rewrite Rinv_inv; lra).
    apply Rinv_le_contravar; lra.
  - intros Hp.
    assert (Hm : Rmax 1e-9 p <= 1)
      by (unfold Rmax; destruct (Rle_dec 1e-9 p); lra).
    apply Rmult_le_reg_r with (Rmax 1e-9 p); [assumption |].
    rewrite Rinv_l by lra. lra.
Qed.

(** X22: against a positive fair price the edge is [(b - fair)/fair*100]
    and the bands are cut at 2 per cent either way: VALUE exactly when the
    book price is above [1.02 * fair], NO VALUE exactly when it is below
    [0.98 * fair], MARGINAL in between, both ends included. *)
Theorem edge_bands (b fair : R) :
  0 < fair ->
  exists f,
    edge b fair = Edge ((b - fair) / fair * 100) f
    /\ (f = VALUE <-> 1.02 * fair < b)
    /\ (f = NO_VALUE <-> b < 0.98 * fair)
    /\ (f = MARGINAL <-> 0.98 * fair <= b <= 1.02 * fair).
Proof.
  intros Hfair. unfold edge. rewrite py_div_ok by lra.
  cbn [mbind py_bind mret py_ret].
  assert (He : (b - fair) / fair * 100 = (b / fair - 1) * 100)
    by (field; lra).
  assert (Hb : b = b / fair * fair) by (field; lra).
  set (e := (b - fair) / fair * 100) in *.
  set (q := b / fair) in *.
  eexists. split; [reflexivity |].
  destruct (Rlt_dec 2 e); [| destruct (Rle_dec (-2) e);
                             [destruct (Rle_dec e 2) |]];
    repeat split; intros; try discriminate; try reflexivity; try nra.
Qed.

Lemma edge_bands_witness :
  0 < 2
  /\ exists f,
       edge 2.1 2 = Edge ((2.1 - 2) / 2 * 100) f
       /\ (f = VALUE <-> 1.02 * 2 < 2.1)
       /\ (f = NO_VALUE <-> 2.1 < 0.98 * 2)
       /\ (f = MARGINAL <-> 0.98 * 2 <= 2.1 <= 1.02 * 2).
Proof.
  split; [lra |]. apply (edge_bands 2.1 2). lra.
Defined.

(** X23: a fair price of zero makes the division fail; the failure is
    caught and reported as invalid odds.  The prices [compare_value] passes
    in are fair odds, which are positive, so this does not happen there. *)
Theorem edge_zero_fair (b p : R) :
  edge b 0 = InvalidOdds
  /\ exists o e f, fair_odds p = Ok o /\ edge b o = Edge e f.
Proof.
  split.
  - unfold edge, py_div. destruct (Req_dec_T 0 0); [reflexivity | lra].
  - destruct (Rmax_floor_pos p 1e-9) as [_ Hpos]; [lra |].
    assert (Ho : 0 < 1 / Rmax 1e-9 p)
      by (apply Rdiv_lt_0_compat; lra).
    exists (1 / Rmax 1e-9 p). do 2 eexists.
    split; [apply fair_odds_value |].
    unfold edge. rewrite py_div_ok by lra.
    cbn [mbind py_bind mret py_ret]. reflexivity.
Qed.

(** * Further properties of [match_win_prob] *)

Lemma race_naive_certain (target : Z) : forall a b,
  ((b < target)%Z -> race_naive 1 target a b = 1)
  /\ ((a < target)%Z -> race_naive 0 target a b = 0).
Proof.
  apply (race_ind target (fun a b =>
    ((b < target)%Z -> race_naive 1 target a b = 1)
    /\ ((a < target)%Z -> race_naive 0 target a b = 0))).
  - intros a b Ha. split; [| lia].
    intros _. apply race_naive_won. assumption.
  - intros a b Ha Hb. split; [lia |].
    intros _. apply race_naive_lost; assumption.
  - intros a b Ha Hb [IHa1 IHa0] [IHb1 IHb0]. split; intros _.
    + rewrite race_naive_step, IHa1 by assumption. lra.
    + rewrite race_naive_step, IHb0 by assumption. lra.
Qed.

(** X24: in a deciding frame, with both players one frame short of the
    target, the match probability is [p] itself; in particular a best-of-1
    from 0-0 is worth [p]. *)
Theorem match_win_prob_decider (fuel : nat) (p : R) (target : Z) :
  (2 < fuel)%nat ->
  match_win_prob_call fuel p (target - 1) (target - 1) target = Some p.
Proof.
  intros Hfuel.
  rewrite match_win_prob_call_naive by (unfold race_depth; lia).
  rewrite race_naive_step by lia.
  rewrite race_naive_won, race_naive_lost by lia.
  f_equal. lra.
Qed.

Lemma match_win_prob_decider_witness :
  (2 < 3)%nat /\ match_win_prob_call 3 0.6 (1 - 1) (1 - 1) 1 = Some 0.6.
Proof.
  split; [lia |]. apply (match_win_prob_decider 3 0.6 1). lia.
Defined.

(** X26: a certain frame makes a certain match: with [p = 1] the result is
    1 as long as B has not reached the target, and with [p = 0] it is 0 as
    long as A has not. *)
Theorem match_win_prob_certain (fuel : nat) (a b target : Z) :
  (race_depth a b target < fuel)%nat ->
  ((b < target)%Z -> match_win_prob_call fuel 1 a b target = Some 1)
  /\ ((a < target)%Z -> match_win_prob_call fuel 0 a b target = Some 0).
Proof.
  intros Hfuel. rewrite !match_win_prob_call_naive by assumption.
  destruct (race_naive_certain target a b) as [H1 H0].
  split; intros H; f_equal; auto.
Qed.

Lemma match_win_prob_certain_witness :
  (race_depth 0 3 4 < 9)%nat
  /\ ((3 < 4)%Z -> match_win_prob_call 9 1 0 3 4 = Some 1)
  /\ ((0 < 4)%Z -> match_win_prob_call 9 0 0 3 4 = Some 0).
Proof.
  assert (Hd : (race_depth 0 3 4 < 9)%nat) by (vm_compute; lia).
  split; [exact Hd |]. apply (match_win_prob_certain 9 0 3 4 Hd).
Defined.

(** X27: for [p] in [0, 1], a frame won by A never lowers the match
    probability and a frame won by B never raises it. *)
Theorem match_win_prob_frame_order (fuel : nat) (p : R) (a b target : Z) :
  0 <= p <= 1 ->
  (race_depth a b target < fuel)%nat ->
  exists lost now won,
    match_win_prob_call fuel p a (b + 1) target = Some lost
    /\ match_win_prob_call fuel p a b target = Some now
    /\ match_win_prob_call fuel p (a + 1) b target = Some won
    /\ lost <= now <= won.
Proof.
  intros Hp Hfuel. do 3 eexists.
  split; [apply match_win_prob_call_naive; unfold race_depth in *; lia |].
  split; [apply match_win_prob_call_naive; assumption |].
  split; [apply match_win_prob_call_naive; unfold race_depth in *; lia |].
  split; [apply race_naive_mono_b | apply race_naive_mono_a]; assumption.
Qed.

Lemma match_win_prob_frame_order_witness :
  0 <= 0.6 <= 1 /\ (race_depth 1 1 4 < 9)%nat
  /\ exists lost now won,
       match_win_prob_call 9 0.6 1 (1 + 1) 4 = Some lost
       /\ match_win_prob_call 9 0.6 1 1 4 = Some now
       /\ match_win_prob_call 9 0.6 (1 + 1) 1 4 = Some won
       /\ lost <= now <= won.
Proof.
  assert (Hd : (race_depth 1 1 4 < 9)%nat) by (vm_compute; lia).
  split; [lra |]. split; [exact Hd |].
  apply (match_win_prob_frame_order 9 0.6 1 1 4); [lra | exact Hd].
Defined.

(** What a call does to the memo: nothing is removed or overwritten, and a
    new key is a score below the target reached from [(a, b)]. *)
Lemma match_win_prob_memo_grows fuel p target : forall a b memo v memo',
  match_win_prob fuel p a b target memo = Some (v, memo') ->
  (forall k w, memo !! k = Some w -> memo' !! k = Some w)
  /\ (forall x y w, memo' !! (x, y) = Some w ->
        memo !! (x, y) = Some w
        \/ ((a <= x < target)%Z /\ (b <= y < target)%Z)).
Proof.
  induction fuel as [| fuel IH]; intros a b memo v memo' Hrun.
  - discriminate.
  - destruct (score_cases a b target) as [Ha | [[Ha Hb] | [Ha Hb]]].
    + rewrite match_win_prob_won in Hrun by assumption.
      inversion Hrun; subst. split; auto.
    + rewrite match_win_prob_lost in Hrun by assumption.
      inversion Hrun; subst. split; auto.
    + destruct (memo !! (a, b)) as [w0 |] eqn:Hm.
      * rewrite (match_win_prob_hit _ _ _ _ _ _ w0) in Hrun by assumption.
        inversion Hrun; subst. split; auto.
      * rewrite match_win_prob_miss in Hrun by assumption.
        destruct (match_win_prob fuel p (a + 1) b target memo)
          as [[x1 memo1] |] eqn:H1; [| discriminate].
        destruct (match_win_prob fuel p a (b + 1) target memo1)
          as [[y1 memo2] |] eqn:H2; [| discriminate].
        destruct (IH _ _ _ _ _ H1) as [Hsub1 Hnew1].
        destruct (IH _ _ _ _ _ H2) as [Hsub2 Hnew2].
        inversion Hrun; subst. split.
        -- intros k w Hk.
           assert (Hne : (a, b) <> k) by (intros <-; congruence).
           rewrite lookup_insert_ne by assumption. auto.
        -- intros x y w Hxy.
           destruct (decide ((a, b) = (x, y))) as [Heq | Hne].
           ++ inversion Heq; subst. right. lia.
           ++ rewrite lookup_insert_ne in Hxy by assumption.
              destruct (Hnew2 _ _ _ Hxy) as [Hin1 | Hr]; [| right; lia].
              destruct (Hnew1 _ _ _ Hin1) as [Hin | Hr]; [left | right; lia].
              assumption.
Qed.

Lemma match_win_prob_stores fuel p target a b memo v memo' :
  (a < target)%Z -> (b < target)%Z ->
  match_win_prob fuel p a b target memo = Some (v, memo') ->
  memo' !! (a, b) = Some v.
Proof.
  intros Ha Hb Hrun. destruct fuel as [| fuel]; [discriminate |].
  destruct (memo !! (a, b)) as [w0 |] eqn:Hm.
  - rewrite (match_win_prob_hit _ _ _ _ _ _ w0) in Hrun by assumption.
    inversion Hrun; subst. assumption.
  - rewrite match_win_prob_miss in Hrun by assumption.
    destruct (match_win_prob fuel p (a + 1) b target memo)
      as [[x1 memo1] |]; [| discriminate].
    destruct (match_win_prob fuel p a (b + 1) target memo1)
      as [[y1 memo2] |]; [| discriminate].
    inversion Hrun; subst. apply lookup_insert_eq.
Qed.

(** X29: a call started from a memo whose entries agree with the recurrence
    and allowed a depth above [race_depth] returns the value of the
    recurrence and leaves such a memo; it keeps every entry it was given,
    and every key it adds is a score below the target with at least [a] and
    [b] frames. *)
Theorem match_win_prob_memo_invariant
    (fuel : nat) (p : R) (a b target : Z) (memo : gmap (Z * Z) R) :
  memo_ok p target memo ->
  (race_depth a b target < fuel)%nat ->
  exists v memo',
    match_win_prob fuel p a b target memo = Some (v, memo')
    /\ v = race_naive p target a b
    /\ memo_ok p target memo'
    /\ (forall k w, memo !! k = Some w -> memo' !! k = Some w)
    /\ (forall x y w, memo' !! (x, y) = Some w ->
          memo !! (x, y) = Some w
          \/ ((a <= x < target)%Z /\ (b <= y < target)%Z)).
Proof.
  intros Hok Hfuel.
  destruct (match_win_prob_returns fuel p a b target memo Hfuel)
    as (v & memo' & Hrun).
  exists v, memo'. split; [assumption |].
  destruct (match_win_prob_naive p target fuel _ _ _ _ _ Hok Hrun)
    as [Hv Hok'].
  destruct (match_win_prob_memo_grows _ _ _ _ _ _ _ _ Hrun) as [Hsub Hnew].
  auto.
Qed.

(** A memo that already holds the entry of the score 1-0 of a race to 2. *)
Lemma memo_ok_one_entry :
  memo_ok 0.6 2 (<[(1%Z, 0%Z) := race_naive 0.6 2 1 0]> ∅).
Proof. apply memo_ok_insert. apply memo_ok_empty. Qed.

Lemma match_win_prob_memo_invariant_witness :
  memo_ok 0.6 2 (<[(1%Z, 0%Z) := race_naive 0.6 2 1 0]> ∅)
  /\ (race_depth 0 0 2 < 5)%nat
  /\ exists v memo',
       match_win_prob 5 0.6 0 0 2 (<[(1%Z, 0%Z) := race_naive 0.6 2 1 0]> ∅)
         = Some (v, memo')
       /\ v = race_naive 0.6 2 0 0
       /\ memo' !! (1%Z, 0%Z) = Some (race_naive 0.6 2 1 0).
Proof.
  assert (Hd : (race_depth 0 0 2 < 5)%nat) by (vm_compute; lia).
  split; [exact memo_ok_one_entry |]. split; [exact Hd |].
  destruct (match_win_prob_memo_invariant 5 0.6 0 0 2 _
              memo_ok_one_entry Hd)
    as (v & memo' & Hrun & Hv & _ & Hkept & _).
  exists v, memo'. split; [exact Hrun |]. split; [exact Hv |].
  apply Hkept. apply lookup_insert_eq.
Defined.

(** X30: the memo is trusted as it is.  After a call at an undecided score,
    a second call on the memo it left returns the stored value at once,
    unchanged, whatever frame probability the second call is given. *)
Theorem match_win_prob_memo_reuse
    (fuel fuel' : nat) (p q : R) (a b target : Z)
    (memo memo' : gmap (Z * Z) R) (v : R) :
  (a < target)%Z -> (b < target)%Z ->
  match_win_prob fuel p a b target memo = Some (v, memo') ->
  match_win_prob (S fuel') q a b target memo' = Some (v, memo').
Proof.
  intros Ha Hb Hrun. apply match_win_prob_hit; try assumption.
  apply (match_win_prob_stores fuel p target a b memo); assumption.
Qed.

Lemma match_win_prob_memo_reuse_witness :
  (0 < 1)%Z /\ (0 < 1)%Z
  /\ match_win_prob 3 0.6 0 0 1 ∅
     = Some (0.6 * 1 + (1 - 0.6) * 0,
             <[(0%Z, 0%Z) := 0.6 * 1 + (1 - 0.6) * 0]> ∅)
  /\ match_win_prob 1 0.9 0 0 1
       (<[(0%Z, 0%Z) := 0.6 * 1 + (1 - 0.6) * 0]> ∅)
     = Some (0.6 * 1 + (1 - 0.6) * 0,
             <[(0%Z, 0%Z) := 0.6 * 1 + (1 - 0.6) * 0]> ∅).
Proof.
  assert (Hrun : match_win_prob 3 0.6 0 0 1 ∅
                 = Some (0.6 * 1 + (1 - 0.6) * 0,
                         <[(0%Z, 0%Z) := 0.6 * 1 + (1 - 0.6) * 0]> ∅)).
  { rewrite match_win_prob_miss by (try lia; apply lookup_empty).
    rewrite match_win_prob_won by lia.
    rewrite match_win_prob_lost by lia. reflexivity. }
  split; [lia |]. split; [lia |]. split; [exact Hrun |].
  apply (match_win_prob_memo_reuse 3 0 0.6 0.9 0 0 1 ∅ _ _
           ltac:(lia) ltac:(lia) Hrun).
Defined.
